(** * csv-splitter: a shallow embedding of [split_csv.py]

    The program reads a CSV file with Python's [csv.reader], cuts the data
    rows into chunks of at most [max_lines] rows and writes every chunk,
    prefixed by the header, with [csv.writer] to a file named after the
    inclusive row range of the chunk.

    The development has four parts: a model of the two library modules the
    script relies on ([csv] with its default dialect, [pathlib]), a model of
    the file system and of standard output, the embedding of [split_csv] and
    [main], and the theorems about them.

    Python integers are [Z], text is [string], a row is a list of strings.
    The file system maps paths to regular files, which hold their text, and
    to directories.  On such a file system three exceptions can leave
    [split_csv], and the model has them: [FileNotFoundError] when the input
    is not there, [IsADirectoryError] when the input or the path of an
    output file is a directory, and [csv.Error] when a field outgrows the
    reader's limit.  What the model leaves out is what such a file system
    cannot tell: permissions, a full disk, a name that is too long, links,
    and bytes that are no UTF-8. *)

From Stdlib Require Import Ascii.
From stdpp Require Import base numbers list strings gmap pretty.

(** ** Characters used by the default CSV dialect *)

Definition LF : ascii := "010"%char.
Definition CR : ascii := "013"%char.
Definition COMMA : ascii := ","%char.
Definition DQUOTE : ascii := "034"%char.

Definition is_newline (c : ascii) : bool :=
  bool_decide (c = LF) || bool_decide (c = CR).

(** [str1 c] is the one-character string, [snoc s c] appends a character. *)
Definition str1 (c : ascii) : string := String c EmptyString.
Definition snoc (s : string) (c : ascii) : string := s +:+ str1 c.

(** ** Python's [csv] module, dialect [excel]

    The delimiter is the comma, the quote character the double quote,
    [doublequote=True], [escapechar=None], [skipinitialspace=False], the line
    terminator is CR LF, [quoting=QUOTE_MINIMAL] and [strict=False].  A row is
    a list of field values. *)

Module Csv.

Abbreviation Row := (list string).

(** *** Text-file iteration with an empty [newline] argument

    The file object yields lines that end at LF, at CR LF or at a lone CR;
    the terminators are kept.  [readlines] carries the current line. *)
Fixpoint readlines_from (cur : string) (s : string) : list string :=
  match s with
  | EmptyString =>
      match cur with EmptyString => [] | _ => [cur] end
  | String c s' =>
      if bool_decide (c = LF) then snoc cur c :: readlines_from EmptyString s'
      else if bool_decide (c = CR) then
        match s' with
        | String c' s'' =>
            if bool_decide (c' = LF)
            then snoc (snoc cur c) c' :: readlines_from EmptyString s''
            else snoc cur c :: readlines_from EmptyString s'
        | EmptyString => [snoc cur c]
        end
      else readlines_from (snoc cur c) s'
  end.

Definition readlines (s : string) : list string := readlines_from EmptyString s.

(** *** The reader's state machine ([parse_process_char])

    The states of the escape character are left out: the dialect has none.
    Every character that is not the delimiter, the quote or a line break is
    data, the character of code 0 as well. *)
Inductive ParserState :=
| START_RECORD
| START_FIELD
| IN_FIELD
| IN_QUOTED_FIELD
| QUOTE_IN_QUOTED_FIELD
| EAT_CRNL.

#[global] Instance ParserState_eq_dec : EqDecision ParserState.
Proof. solve_decision. Defined.

Record ReaderObj := mkReader {
  state : ParserState;
  fields : Row;
  field : string
}.

Definition parse_reset : ReaderObj :=
  {| state := START_RECORD; fields := []; field := EmptyString |}.

Definition parse_save_field (r : ReaderObj) : ReaderObj :=
  {| state := state r; fields := fields r ++ [field r]; field := EmptyString |}.

(** [csv.field_size_limit()]: the number of characters a field may hold. *)
Definition field_limit : Z := 131072.

(** [None] is [csv.Error]: the field is at the limit already. *)
Definition parse_add_char (r : ReaderObj) (c : ascii) : option ReaderObj :=
  if bool_decide (field_limit ≤ Z.of_nat (String.length (field r)))%Z then None
  else Some {| state := state r; fields := fields r; field := snoc (field r) c |}.

Definition set_state (r : ReaderObj) (st : ParserState) : ReaderObj :=
  {| state := st; fields := fields r; field := field r |}.

(** [parse_add_char], then the new state. *)
Definition add_char_then (r : ReaderObj) (c : ascii) (st : ParserState)
    : option ReaderObj :=
  match parse_add_char r c with
  | Some r' => Some (set_state r' st)
  | None => None
  end.

(** The input of one step: a character of the line, or the end-of-line
    mark [EOL] the reader feeds after every line. *)
Inductive Input := Chr (c : ascii) | EOL.

Definition after_line_end (i : Input) : ParserState :=
  match i with EOL => START_RECORD | Chr _ => EAT_CRNL end.

Definition ends_line (i : Input) : bool :=
  match i with EOL => true | Chr c => is_newline c end.

(** The step from [START_FIELD], which [START_RECORD] shares for a
    character that is no line break. *)
Definition start_field (r : ReaderObj) (i : Input) : option ReaderObj :=
  if ends_line i then
    Some (set_state (parse_save_field r) (after_line_end i))
  else match i with
  | EOL => Some r
  | Chr c =>
      if bool_decide (c = DQUOTE) then Some (set_state r IN_QUOTED_FIELD)
      else if bool_decide (c = COMMA) then Some (parse_save_field r)
      else add_char_then r c IN_FIELD
  end.

(** One step of the machine.  [None] is [csv.Error]: a field over the
    limit, or a character after a line break inside one line. *)
Definition parse_process_char (r : ReaderObj) (i : Input) : option ReaderObj :=
  match state r with
  | START_RECORD =>
      match i with
      | EOL => Some r
      | Chr c =>
          if is_newline c then Some (set_state r EAT_CRNL)
          else start_field (set_state r START_FIELD) i
      end
  | START_FIELD => start_field r i
  | IN_FIELD =>
      if ends_line i then
        Some (set_state (parse_save_field r) (after_line_end i))
      else match i with
      | EOL => Some r
      | Chr c =>
          if bool_decide (c = COMMA)
          then Some (set_state (parse_save_field r) START_FIELD)
          else parse_add_char r c
      end
  | IN_QUOTED_FIELD =>
      match i with
      | EOL => Some r
      | Chr c =>
          if bool_decide (c = DQUOTE) then Some (set_state r QUOTE_IN_QUOTED_FIELD)
          else parse_add_char r c
      end
  | QUOTE_IN_QUOTED_FIELD =>
      match i with
      | Chr c =>
          if bool_decide (c = DQUOTE)
          then add_char_then r c IN_QUOTED_FIELD
          else if bool_decide (c = COMMA)
          then Some (set_state (parse_save_field r) START_FIELD)
          else if is_newline c
          then Some (set_state (parse_save_field r) EAT_CRNL)
          else add_char_then r c IN_FIELD
      | EOL => Some (set_state (parse_save_field r) START_RECORD)
      end
  | EAT_CRNL =>
      match i with
      | EOL => Some (set_state r START_RECORD)
      | Chr c => if is_newline c then Some r else None
      end
  end.

(** The characters of one line, then [EOL]. *)
Fixpoint parse_line (r : ReaderObj) (line : string) : option ReaderObj :=
  match line with
  | EmptyString => parse_process_char r EOL
  | String c line' =>
      match parse_process_char r (Chr c) with
      | Some r' => parse_line r' line'
      | None => None
      end
  end.

(** *** [Reader_iternext], called again and again

    One record is read by feeding lines until the machine is back in
    [START_RECORD]; at the end of the input a record that is under way is
    returned as it stands.  The reader reads a line only when it is asked for
    a row, so an error in a line shows when the row of that line is asked
    for, after the rows before it were yielded.  An iterator is taken here
    for what [next] gives call after call: the rows it yields, in order, and
    the way it stops after the last of them, with [StopIteration] or with
    [csv.Error].  [records r lines] is that for the lines yet to be read,
    [r] being the state of the record under way. *)
Inductive Stop := StopIteration | Error.

#[global] Instance Stop_eq_dec : EqDecision Stop.
Proof. solve_decision. Defined.

(** The iterator that yields [row] first and then goes on as [it]. *)
Definition yield (row : Row) (it : list Row * Stop) : list Row * Stop :=
  (row :: it.1, it.2).

Definition at_eof (r : ReaderObj) : list Row :=
  if bool_decide (field r ≠ EmptyString) || bool_decide (state r = IN_QUOTED_FIELD)
  then [fields (parse_save_field r)]
  else [].

Fixpoint records (r : ReaderObj) (lines : list string) : list Row * Stop :=
  match lines with
  | [] => (at_eof r, StopIteration)
  | line :: lines' =>
      match parse_line r line with
      | None => ([], Error)
      | Some r' =>
          if bool_decide (state r' = START_RECORD)
          then yield (fields r') (records parse_reset lines')
          else records r' lines'
      end
  end.

(** [csv.reader(f)] for a file of content [s]. *)
Definition reader (s : string) : list Row * Stop :=
  records parse_reset (readlines s).

(** [list(reader)]: all the rows; [None] when the reader raises. *)
Definition to_list (it : list Row * Stop) : option (list Row) :=
  match it.2 with
  | StopIteration => Some it.1
  | Error => None
  end.

(** *** The writer ([csv_writerow], [join_append_data]) *)

Definition needs_quoting (c : ascii) : bool :=
  bool_decide (c = COMMA) || bool_decide (c = DQUOTE) || is_newline c.

Fixpoint string_exists (p : ascii → bool) (s : string) : bool :=
  match s with
  | EmptyString => false
  | String c s' => p c || string_exists p s'
  end.

(** The field data with every quote character doubled. *)
Fixpoint copy_field (s : string) : string :=
  match s with
  | EmptyString => EmptyString
  | String c s' =>
      if bool_decide (c = DQUOTE) then String c (String c (copy_field s'))
      else String c (copy_field s')
  end.

Definition quoted (s : string) : string :=
  String DQUOTE (copy_field s +:+ str1 DQUOTE).

Definition join_append (s : string) : string :=
  if string_exists needs_quoting s then quoted s else s.

Fixpoint join (r : Row) : string :=
  match r with
  | [] => EmptyString
  | [f] => join_append f
  | f :: r' => join_append f +:+ String COMMA (join r')
  end.

Definition lineterminator : string := String CR (str1 LF).

(** A record of one empty field is written as a pair of quotes. *)
Definition writerow (r : Row) : string :=
  let rec := join r in
  (if bool_decide (0 < length r) && bool_decide (rec = EmptyString)
   then quoted EmptyString else rec) +:+ lineterminator.

Fixpoint writerows (rs : list Row) : string :=
  match rs with
  | [] => EmptyString
  | r :: rs' => writerow r +:+ writerows rs'
  end.

End Csv.

(** ** Python's [pathlib] (pure POSIX paths)

    A path is its anchor (empty for a relative path, the slash for an
    absolute one) and the list of its components.  [suffix] and [stem] cut
    the name at its last dot, as [pathlib] does up to Python 3.13. *)

Module PathLib.

Record Path := mkPath { anchor : string; parts : list string }.

#[global] Instance Path_eq_dec : EqDecision Path.
Proof. solve_decision. Defined.

#[global] Instance Path_countable : Countable Path :=
  inj_countable' (λ p, (anchor p, parts p)) (λ x, mkPath x.1 x.2)
    (λ p, match p with mkPath _ _ => eq_refl end).

(** [p.name]: the last component, empty when there is none. *)
Definition name (p : Path) : string := List.last (parts p) EmptyString.

(** [p.parent]: the path without its last component. *)
Definition parent (p : Path) : Path :=
  {| anchor := anchor p; parts := removelast (parts p) |}.

(** [p / seg] for a segment that is one relative component. *)
Definition joinpath (p : Path) (seg : string) : Path :=
  {| anchor := anchor p; parts := parts p ++ [seg] |}.

Fixpoint join_parts (l : list string) : string :=
  match l with
  | [] => EmptyString
  | [x] => x
  | x :: l' => x +:+ "/" +:+ join_parts l'
  end.

(** [str(p)] *)
Definition str (p : Path) : string :=
  match anchor p, parts p with
  | EmptyString, [] => "."
  | a, l => a +:+ join_parts l
  end.

(** [name.rfind('.')]: the index of the last dot, [-1] when there is none. *)
Fixpoint rfind_dot (s : string) : Z :=
  match s with
  | EmptyString => -1
  | String c s' =>
      let i := rfind_dot s' in
      if bool_decide (0 ≤ i)%Z then (i + 1)%Z
      else if bool_decide (c = "."%char) then 0%Z else (-1)%Z
  end.

Fixpoint str_take (n : nat) (s : string) : string :=
  match n, s with
  | S n', String c s' => String c (str_take n' s')
  | _, _ => EmptyString
  end.

Fixpoint str_drop (n : nat) (s : string) : string :=
  match n, s with
  | S n', String c s' => str_drop n' s'
  | _, _ => s
  end.

(** A dot splits the name when it is neither its first nor its last
    character: [0 < i < len(name) - 1]. *)
Definition splits (nm : string) : bool :=
  let i := rfind_dot nm in
  bool_decide (0 < i)%Z && bool_decide (i < Z.of_nat (String.length nm) - 1)%Z.

(** [p.suffix] *)
Definition suffix (p : Path) : string :=
  let nm := name p in
  if splits nm then str_drop (Z.to_nat (rfind_dot nm)) nm else EmptyString.

(** [p.stem] *)
Definition stem (p : Path) : string :=
  let nm := name p in
  if splits nm then str_take (Z.to_nat (rfind_dot nm)) nm else nm.

End PathLib.

Import PathLib.

(** ** The file system and standard output

    A path denotes a regular file with its text or a directory.  The world
    also records what the program did, in order: the files it wrote and the
    lines it printed.  Opening a path for writing raises when the path is a
    directory ([open_w]); otherwise it creates or truncates the file, and
    [write_file] is the write that follows. *)

Inductive Node :=
| File (content : string)
| Dir.

#[global] Instance Node_eq_dec : EqDecision Node.
Proof. solve_decision. Defined.

Inductive Event :=
| EvWrite (p : Path) (content : string)
| EvPrint (line : string).

Record World := mkWorld {
  fs : gmap Path Node;
  log : list Event
}.

Definition print (w : World) (line : string) : World :=
  {| fs := fs w; log := log w ++ [EvPrint line] |}.

Definition write_file (w : World) (p : Path) (content : string) : World :=
  {| fs := <[p := File content]> (fs w); log := log w ++ [EvWrite p content] |}.

(** [p.exists()] and [p.is_file()] *)
Definition path_exists (w : World) (p : Path) : bool :=
  match fs w !! p with Some _ => true | None => false end.

Definition is_file (w : World) (p : Path) : bool :=
  match fs w !! p with Some (File _) => true | _ => false end.

(** The files written and the lines printed by a list of events. *)
Definition written (evs : list Event) : list (Path * string) :=
  omap (λ e, match e with EvWrite p c => Some (p, c) | EvPrint _ => None end) evs.

Definition stdout (evs : list Event) : list string :=
  omap (λ e, match e with EvPrint l => Some l | EvWrite _ _ => None end) evs.

(** A call returns or raises; either way it leaves a world behind. *)
Inductive Exn := FileNotFoundError | IsADirectoryError | CsvError.

#[global] Instance Exn_eq_dec : EqDecision Exn.
Proof. solve_decision. Defined.

(** [open(p, "w")]: the exception it raises, if it raises. *)
Definition open_w (w : World) (p : Path) : option Exn :=
  match fs w !! p with
  | Some Dir => Some IsADirectoryError
  | _ => None
  end.

Inductive Outcome :=
| Returned (w : World)
| Raised (e : Exn) (w : World).

Definition world_of (o : Outcome) : World :=
  match o with Returned w => w | Raised _ w => w end.

(** ** [split_csv]

    The reader is the list of the rows it has yet to yield, with the way it
    stops after them; [next(reader)] takes the first row off, and on the
    empty list it raises [StopIteration] or [csv.Error].  The rows are those
    of the text the file had when it was opened: the program writes to no
    path but the output files, and none of them is the input file
    ([output_file_ne_input] below). *)

(** The name of the output file of the rows [start_row] to [end_row]:
    [output_dir / f"{base_name}.{start_row}-{end_row}{extension}"]. *)
Definition output_file (input_file : Path) (start_row end_row : Z) : Path :=
  let base_name := stem input_file in
  let extension := suffix input_file in
  let output_dir := parent input_file in
  joinpath output_dir
    (base_name +:+ "." +:+ pretty start_row +:+ "-" +:+ pretty end_row +:+ extension).

(** The inner loop [for _ in range(max_lines)]: [n] rounds, each taking the
    next row off the reader, until the reader is exhausted.  It returns the
    reader, the chunk and the row number it leaves behind. *)
Fixpoint collect (n : nat) (reader : list Csv.Row) (chunk : list Csv.Row) (row_num : Z)
    : list Csv.Row * list Csv.Row * Z :=
  match n with
  | O => (reader, chunk, row_num)
  | S n' =>
      match reader with
      | [] => (reader, chunk, row_num)
      | row :: reader' => collect n' reader' (chunk ++ [row]) (row_num + 1)
      end
  end.

(** The inner loop calls [next] once in each of its [n] rounds.  When fewer
    than [n] rows are left, the call after the last of them finds the reader
    at its end: [StopIteration] is caught and leaves the loop, which is the
    empty list in [collect]; [csv.Error] is not caught, and the rows taken in
    this round are lost with the chunk. *)
Definition collect_raises (n : nat) (reader : list Csv.Row) (stop : Csv.Stop) : bool :=
  bool_decide (length reader < n)%nat && bool_decide (stop = Csv.Error).

(** How the loop [while True] ends: through [break], with the number of
    chunks it counted, or with an exception. *)
Inductive LoopEnd := Broke (chunk_num : Z) | Threw (e : Exn).

(** The loop [while True].  [fuel] bounds the number of rounds; [None] means
    that the bound was reached before the loop ended. *)
Fixpoint while_true (fuel : nat) (input_file : Path) (max_lines : Z)
    (header : Csv.Row) (reader : list Csv.Row) (stop : Csv.Stop)
    (row_num chunk_num : Z) (w : World) : option (LoopEnd * World) :=
  match fuel with
  | O => None
  | S fuel' =>
      let start_row := row_num in
      if collect_raises (Z.to_nat max_lines) reader stop
      then Some (Threw CsvError, w)
      else
        let '(reader, chunk, row_num) :=
          collect (Z.to_nat max_lines) reader [] row_num in
        match chunk with
        | [] => Some (Broke chunk_num, w)
        | _ :: _ =>
            let end_row := (row_num - 1)%Z in
            let out := output_file input_file start_row end_row in
            match open_w w out with
            | Some e => Some (Threw e, w)
            | None =>
                let w :=
                  write_file w out (Csv.writerow header +:+ Csv.writerows chunk) in
                let w := print w ("Created: " +:+ str out) in
                while_true fuel' input_file max_lines header reader stop row_num
                  (chunk_num + 1) w
            end
        end
  end.

Definition split_csv (fuel : nat) (w : World) (input_file : Path) (max_lines : Z)
    : option Outcome :=
  match fs w !! input_file with
  | None => Some (Raised FileNotFoundError w)
  | Some Dir => Some (Raised IsADirectoryError w)
  | Some (File content) =>
      match Csv.reader content with
      | ([], Csv.StopIteration) =>
          Some (Returned (print w "Error: Input file is empty"))
      | ([], Csv.Error) => Some (Raised CsvError w)
      | (header :: reader, stop) =>
          match while_true fuel input_file max_lines header reader stop 1 0 w with
          | None => None
          | Some (Threw e, w) => Some (Raised e w)
          | Some (Broke chunk_num, w) =>
              if bool_decide (chunk_num = 0%Z)
              then Some (Returned (print w "No data rows found in the input file"))
              else Some (Returned (print w
                     ("Split complete: Created " +:+ pretty chunk_num +:+ " files")))
          end
      end
  end.

(** ** [main]

    The arguments are those [argparse] hands over: a path and an integer.
    [main_with] takes the splitter it calls as a parameter. *)
Definition main_with (split : World → Path → Z → option Outcome)
    (w : World) (input_csv : Path) (max_lines : Z) : option Outcome :=
  if negb (path_exists w input_csv) then
    Some (Returned (print w
      ("Error: Input file '" +:+ str input_csv +:+ "' does not exist")))
  else if negb (is_file w input_csv) then
    Some (Returned (print w ("Error: '" +:+ str input_csv +:+ "' is not a file")))
  else if bool_decide (max_lines ≤ 0)%Z then
    Some (Returned (print w "Error: --max-lines must be a positive integer"))
  else split w input_csv max_lines.

Definition main (fuel : nat) : World → Path → Z → option Outcome :=
  main_with (split_csv fuel).

(** [runs_to run o]: the run ends with outcome [o] once it is given enough
    rounds, whatever their number beyond that. *)
Definition runs_to (run : nat → option Outcome) (o : Outcome) : Prop :=
  ∃ fuel0, ∀ fuel, fuel0 ≤ fuel → run fuel = Some o.

(** ** The reader as one pass over the text

    [scan] reads the text character by character and feeds [EOL] where a
    line ends; it is shown below to compute what [Csv.records] computes on
    [Csv.readlines].  [pending] tells whether the current line has
    characters; [feed] runs the machine over a part of a line. *)

Fixpoint feed (r : Csv.ReaderObj) (s : string) : option Csv.ReaderObj :=
  match s with
  | EmptyString => Some r
  | String c s' =>
      match Csv.parse_process_char r (Csv.Chr c) with
      | Some r' => feed r' s'
      | None => None
      end
  end.

Definition end_of_line (r : Csv.ReaderObj)
    (k : Csv.ReaderObj → list Csv.Row * Csv.Stop) : list Csv.Row * Csv.Stop :=
  match Csv.parse_process_char r Csv.EOL with
  | None => ([], Csv.Error)
  | Some r' =>
      if bool_decide (Csv.state r' = Csv.START_RECORD)
      then Csv.yield (Csv.fields r') (k Csv.parse_reset)
      else k r'
  end.

Fixpoint scan (r : Csv.ReaderObj) (pending : bool) (s : string)
    : list Csv.Row * Csv.Stop :=
  match s with
  | EmptyString =>
      if pending then end_of_line r (λ r', (Csv.at_eof r', Csv.StopIteration))
      else (Csv.at_eof r, Csv.StopIteration)
  | String c s' =>
      match Csv.parse_process_char r (Csv.Chr c) with
      | None => ([], Csv.Error)
      | Some r1 =>
          if bool_decide (c = LF) then end_of_line r1 (λ r', scan r' false s')
          else if bool_decide (c = CR) then
            match s' with
            | String c' s'' =>
                if bool_decide (c' = LF) then
                  match Csv.parse_process_char r1 (Csv.Chr c') with
                  | None => ([], Csv.Error)
                  | Some r2 => end_of_line r2 (λ r', scan r' false s'')
                  end
                else end_of_line r1 (λ r', scan r' false s')
            | EmptyString =>
                end_of_line r1 (λ r', (Csv.at_eof r', Csv.StopIteration))
            end
          else scan r1 true s'
      end
  end.

(** The states in which a field is complete. *)
Definition field_done (st : Csv.ParserState) (f : string) : Prop :=
  (st = Csv.START_FIELD ∧ f = EmptyString) ∨ st = Csv.IN_FIELD ∨
  st = Csv.QUOTE_IN_QUOTED_FIELD.

(** The rows of a file: its header is the first row the reader yields, its
    data rows are the rest when the reader reads the file to its end. *)
Definition header_row (content : string) : option Csv.Row :=
  head (Csv.reader content).1.

Definition data_rows (content : string) : list Csv.Row :=
  match Csv.to_list (Csv.reader content) with
  | Some (_ :: rs) => rs
  | _ => []
  end.

(** A field, a row, a list of rows within the reader's limit. *)
Definition field_fits (f : string) : Prop :=
  (Z.of_nat (String.length f) ≤ Csv.field_limit)%Z.

Definition row_fits (row : Csv.Row) : Prop := Forall field_fits row.

Definition rows_fit (rows : list Csv.Row) : Prop := Forall row_fits rows.

(** The field under way and the fields saved are within the limit. *)
Definition reader_fits (r : Csv.ReaderObj) : Prop :=
  field_fits (Csv.field r) ∧ row_fits (Csv.fields r).

(** No path an output file of the input could have is a directory. *)
Definition outputs_free (w : World) (input_file : Path) : Prop :=
  ∀ start_row end_row,
    fs w !! output_file input_file start_row end_row ≠ Some Dir.

(** [no_dash s]: no character of [s] is a dash. *)
Fixpoint no_dash (s : string) : Prop :=
  match s with
  | EmptyString => True
  | String c s' => c ≠ "-"%char ∧ no_dash s'
  end.

(** ** Closed forms the statements use *)

(** The least [c] with [a ≤ c * b], for [0 < b]. *)
Definition ceil_div (a b : Z) : Z := (a + b - 1) / b.

(** The [k]-th run of [n] rows, counting from [0]. *)
Definition nth_chunk (n : nat) (rows : list Csv.Row) (k : nat) : list Csv.Row :=
  take n (drop (k * n) rows).

(** The rows the [k]-th file covers when [H] rows are cut into runs of [N]:
    from [k*N + 1] to [min ((k+1)*N) H]. *)
Definition nth_range (N H : Z) (k : nat) : Z * Z :=
  (Z.of_nat k * N + 1, Z.min ((Z.of_nat k + 1) * N) H)%Z.

Definition in_range (i : Z) (r : Z * Z) : Prop := (r.1 ≤ i ≤ r.2)%Z.

(** What one round of the loop does for the [k]-th chunk of [rows], the
    first of which has number [row0]. *)
Definition chunk_events (input_file : Path) (header : Csv.Row) (n : nat)
    (rows : list Csv.Row) (row0 : Z) (k : nat) : list Event :=
  let H := Z.of_nat (length rows) in
  let N := Z.of_nat n in
  let out := output_file input_file
               (row0 + Z.of_nat k * N)
               (row0 + Z.min ((Z.of_nat k + 1) * N) H - 1) in
  [EvWrite out (Csv.writerow header +:+ Csv.writerows (nth_chunk n rows k));
   EvPrint ("Created: " +:+ str out)].

Definition chunk_count (n H : nat) : nat := (H + n - 1) / n.

Definition loop_events (input_file : Path) (header : Csv.Row) (n : nat)
    (rows : list Csv.Row) (row0 : Z) : list Event :=
  flat_map (chunk_events input_file header n rows row0) (seq 0 (chunk_count n (length rows))).

(** The events of the first [j] chunks, and those of the chunks that are
    complete, the first [length rows / n] of them. *)
Definition first_chunk_events (input_file : Path) (header : Csv.Row) (n : nat)
    (rows : list Csv.Row) (row0 : Z) (j : nat) : list Event :=
  flat_map (chunk_events input_file header n rows row0) (seq 0 j).

Definition full_chunk_events (input_file : Path) (header : Csv.Row) (n : nat)
    (rows : list Csv.Row) (row0 : Z) : list Event :=
  first_chunk_events input_file header n rows row0 (length rows / n).

(** Why the loop raises when it does: the reader stops with an error, or a
    directory is where an output file goes; in both cases the chunk size is
    positive. *)
Definition raise_reason (w : World) (input_file : Path) (max_lines : Z)
    (stop : Csv.Stop) (e : Exn) : Prop :=
  (1 ≤ max_lines)%Z ∧
  ((e = CsvError ∧ stop = Csv.Error) ∨
   (e = IsADirectoryError ∧
    ∃ s t, fs w !! output_file input_file s t = Some Dir)).

Definition end_reason (w : World) (input_file : Path) (max_lines : Z)
    (stop : Csv.Stop) (le : LoopEnd) : Prop :=
  match le with
  | Broke _ => True
  | Threw e => raise_reason w input_file max_lines stop e
  end.

(** The effect of a list of events on a world. *)
Definition do_event (w : World) (e : Event) : World :=
  match e with
  | EvWrite p c => write_file w p c
  | EvPrint l => print w l
  end.

Definition do_events (w : World) (evs : list Event) : World := foldl do_event w evs.

(** The files the run is expected to write, in order: the [k]-th holds the
    header and the [k]-th run of rows and is named after the [k]-th range. *)
Definition expected_output (input_file : Path) (header : Csv.Row) (N : Z)
    (rows : list Csv.Row) (k : nat) : Path * string :=
  let r := nth_range N (Z.of_nat (length rows)) k in
  (output_file input_file r.1 r.2,
   Csv.writerow header +:+ Csv.writerows (nth_chunk (Z.to_nat N) rows k)).

(** The last line of the run. *)
Definition summary (count : Z) : string :=
  if bool_decide (count = 0%Z) then "No data rows found in the input file"
  else "Split complete: Created " +:+ pretty count +:+ " files".

(** The text of the first row of a file whose first row has no line break
    in it: the first line, terminator included. *)
Definition first_row_text (content : string) : option string :=
  head (Csv.readlines content).

(** The header of every file written is, byte for byte, the header of the
    input as it stands in the input. *)
Definition header_bytes_copied (w : World) (input_file : Path) (N : Z) : Prop :=
  ∀ content fuel w' p c,
    fs w !! input_file = Some (File content) →
    split_csv fuel w input_file N = Some (Returned w') →
    (p, c) ∈ written (log w') →
    first_row_text c = first_row_text content.

(** ** The test suite of the repository

    [create_csv_file] and [read_csv_file] are the helpers of
    [test_split_csv.py]; [run_split_csv] runs [main] with fuel to spare.  The
    test writes its input file itself, so [create_csv_file] changes the file
    system and leaves the log of the program alone.  [None] stands for a
    call that raises: for [create_csv_file] the path is a directory, for
    [read_csv_file] there is no such file, or it is a directory, or the file
    has no row ([StopIteration]), or the reader raises [csv.Error]. *)

Definition test_file (fname : string) : Path := mkPath "/" ["tmp"; fname].

Definition test_rows (n : nat) : list Csv.Row :=
  (λ i : nat, [pretty i; "Name" +:+ pretty i; "Value" +:+ pretty i]) <$> seq 1 n.

Definition create_csv_file (w : World) (path : Path) (headers : Csv.Row)
    (rows : list Csv.Row) : option World :=
  match open_w w path with
  | Some _ => None
  | None =>
      Some {| fs := <[path := File (Csv.writerow headers +:+ Csv.writerows rows)]>
                      (fs w);
              log := log w |}
  end.

Definition run_split_csv (w : World) (input_file : Path) (max_lines : Z)
    : option Outcome :=
  main 32 w input_file max_lines.

Definition read_csv_file (w : World) (path : Path)
    : option (Csv.Row * list Csv.Row) :=
  match fs w !! path with
  | Some (File content) =>
      match Csv.reader content with
      | (headers :: rows, Csv.StopIteration) => Some (headers, rows)
      | _ => None
      end
  | _ => None
  end.

(** The lines a run printed and the names of the files it wrote. *)
Definition printed (o : Outcome) : list string := stdout (log (world_of o)).
Definition created (o : Outcome) : list string :=
  name <$> (written (log (world_of o))).*1.

(** ** Sample inputs

    The file of the test suite with twelve rows, a header-only file, an
    empty file, the directory of the tests, files with a field over the
    reader's limit, and a file whose header is quoted though it need not
    be. *)

Definition sample_path : Path := mkPath "/" ["tmp"; "uneven.csv"].
Definition sample_header : Csv.Row := ["ID"; "Name"; "Value"].
Definition sample_rows : list Csv.Row := test_rows 12.
Definition sample_content : string := Csv.writerows (sample_header :: sample_rows).
Definition sample_world : World :=
  {| fs := {[ sample_path := File sample_content ]}; log := [] |}.

Definition header_only_world : World :=
  {| fs := {[ sample_path := File (Csv.writerow sample_header) ]}; log := [] |}.

Definition empty_world : World :=
  {| fs := {[ sample_path := File EmptyString ]}; log := [] |}.

Definition tmp_dir : Path := mkPath "/" ["tmp"].
Definition dir_world : World := {| fs := {[ tmp_dir := Dir ]}; log := [] |}.

(** [c * n] *)
Fixpoint str_replicate (n : nat) (c : ascii) : string :=
  match n with
  | O => EmptyString
  | S n' => String c (str_replicate n' c)
  end.

(** A field of one character more than the reader's limit; a file with the
    rows of the sample and then one more line, which is that field; a file
    that is that field alone. *)
Definition oversized_field : string :=
  str_replicate (Z.to_nat Csv.field_limit) "x" +:+ "x".
Definition oversized_content : string := sample_content +:+ oversized_field.
Definition oversized_world : World :=
  {| fs := {[ sample_path := File oversized_content ]}; log := [] |}.

Definition quoted_content : string :=
  Csv.quoted "Name" +:+ ",Age" +:+ Csv.lineterminator +:+
  "Ann,41" +:+ Csv.lineterminator.
Definition quoted_world : World :=
  {| fs := {[ sample_path := File quoted_content ]}; log := [] |}.

(** The exit status of the process: [0] when [main] returns, [1] when an
    exception leaves it. *)
Definition returncode (o : Outcome) : Z :=
  match o with Returned _ => 0%Z | Raised _ _ => 1%Z end.

(** [l[a:b]] for [0 ≤ a ≤ b]. *)
Definition slice {A} (a b : nat) (l : list A) : list A := take (b - a) (drop a l).

(** The texts of a list, one after the other. *)
Fixpoint str_concat (l : list string) : string :=
  match l with
  | [] => EmptyString
  | x :: l' => x +:+ str_concat l'
  end.

(** [no_dot s]: no character of [s] is a dot. *)
Fixpoint no_dot (s : string) : Prop :=
  match s with
  | EmptyString => True
  | String c s' => c ≠ "."%char ∧ no_dot s'
  end.

(** What the program does for one file: it writes it, then announces it. *)
Definition announce (pc : Path * string) : list Event :=
  [EvWrite pc.1 pc.2; EvPrint ("Created: " +:+ str pc.1)].

(** The events of a run on a file with a header, for any chunk size. *)
Definition run_events (input_file : Path) (header : Csv.Row)
    (rows : list Csv.Row) (N : Z) : list Event :=
  if bool_decide (1 ≤ N)%Z
  then loop_events input_file header (Z.to_nat N) rows 1 ++
       [EvPrint (summary (ceil_div (Z.of_nat (length rows)) N))]
  else [EvPrint "No data rows found in the input file"].

(** ** Tactics *)

(** Case analysis on the machine after a part of a line and one more
    character; a failed step closes the goal. *)
Ltac feed_cases r cur c :=
  destruct (feed r cur) as [?r1|]; [|done];
  destruct (Csv.parse_process_char _ (Csv.Chr c)) as [?r2|]; [|done].

(** A run that ends at once, having written nothing. *)
Ltac ends_at_once :=
  split; [|split; [done|by intros ? ? Hin; inversion Hin]];
  exists 0%nat; intros ? _; unfold split_csv.

(** * Lemmas *)

(** ** Strings *)

Lemma str_app_cons c (a b : string) : String c a +:+ b = String c (a +:+ b).
Proof. done. Qed.

Lemma str_app_nil_l (b : string) : EmptyString +:+ b = b.
Proof. done. Qed.

Lemma str_app_assoc (a b c : string) : (a +:+ b) +:+ c = a +:+ (b +:+ c).
Proof.
  induction a as [|x a IH]; [done|]. by rewrite !str_app_cons, IH.
Qed.

Lemma str_app_nil_r (a : string) : a +:+ EmptyString = a.
Proof.
  induction a as [|x a IH]; [done|]. by rewrite str_app_cons, IH.
Qed.

Lemma str_length_app (a b : string) :
  String.length (a +:+ b) = (String.length a + String.length b)%nat.
Proof.
  induction a as [|x a IH]; [done|].
  rewrite str_app_cons. cbn [String.length]. by rewrite IH.
Qed.

Lemma str_take_drop n s : str_take n s +:+ str_drop n s = s.
Proof.
  revert s. induction n as [|n IH]; intros [|c s]; cbn [str_take str_drop]; try done.
  by rewrite str_app_cons, IH.
Qed.

Lemma str_take_app (a b : string) : str_take (String.length a) (a +:+ b) = a.
Proof.
  induction a as [|x a IH]; [by destruct b|].
  rewrite str_app_cons. cbn [String.length str_take]. by rewrite IH.
Qed.

(** ** Paths *)

Lemma stem_suffix p : stem p +:+ suffix p = name p.
Proof.
  unfold stem, suffix. destruct (splits (name p)).
  - apply str_take_drop.
  - apply str_app_nil_r.
Qed.

Lemma name_joinpath p seg : name (joinpath p seg) = seg.
Proof. unfold name, joinpath; cbn. apply last_last. Qed.

Lemma parent_joinpath p seg : parent (joinpath p seg) = p.
Proof. destruct p. unfold parent, joinpath; cbn. by rewrite removelast_last. Qed.

Lemma parent_output_file input_file s e :
  parent (output_file input_file s e) = parent input_file.
Proof. apply parent_joinpath. Qed.

Lemma name_output_file input_file s e :
  name (output_file input_file s e) =
    stem input_file +:+ "." +:+ pretty s +:+ "-" +:+ pretty e +:+ suffix input_file.
Proof. apply name_joinpath. Qed.

(** The name of an output file is longer than the name of the input. *)
Lemma output_file_ne_input input_file s e : output_file input_file s e ≠ input_file.
Proof.
  intros Heq. pose proof (name_output_file input_file s e) as Hname.
  rewrite Heq, <- stem_suffix in Hname.
  apply (f_equal String.length) in Hname.
  rewrite !str_length_app in Hname. cbn in Hname. lia.
Qed.

(** The decimal numeral of a natural number has no dash in it. *)
Lemma no_dash_pretty_N_go x s : no_dash s → no_dash (pretty_N_go x s).
Proof.
  revert s. induction (N.lt_wf_0 x) as [x _ IH]; intros s Hs.
  assert (x = 0 ∨ 0 < x)%N as [->|Hx] by lia.
  - by rewrite pretty_N_go_0.
  - rewrite pretty_N_go_step by done. apply IH.
    { by apply N.div_lt. }
    split; [|done]. unfold pretty_N_char. by repeat case_match.
Qed.

Lemma no_dash_pretty_Z (z : Z) : (0 ≤ z)%Z → no_dash (pretty z).
Proof.
  intros Hz. destruct z as [|q|q]; [by cbn| |lia].
  unfold pretty, pretty_Z, pretty, pretty_positive, pretty, pretty_N.
  case_decide; [done|]. by apply no_dash_pretty_N_go.
Qed.

Lemma no_dash_split (a b x y : string) :
  no_dash a → no_dash b → a +:+ String "-" x = b +:+ String "-" y → a = b.
Proof.
  revert b. induction a as [|c a IH]; intros [|d b] Ha Hb Heq;
    rewrite ?str_app_cons, ?str_app_nil_l in Heq; cbn in Ha, Hb.
  - done.
  - injection Heq as Hc _. destruct Hb as [Hd _]. congruence.
  - injection Heq as Hc _. destruct Ha as [Hd _]. congruence.
  - injection Heq as Hc Heq. subst d. f_equal. apply IH; tauto.
Qed.

(** Files of rows that start at different numbers have different names. *)
Lemma output_file_start_inj input_file s e s' e' :
  (0 ≤ s)%Z → (0 ≤ s')%Z →
  output_file input_file s e = output_file input_file s' e' → s = s'.
Proof.
  intros Hs Hs' Heq. apply (f_equal name) in Heq.
  rewrite !name_output_file in Heq.
  apply (inj (String.app _)) in Heq.
  rewrite !str_app_cons, !str_app_nil_l in Heq. injection Heq as Heq.
  apply no_dash_split in Heq; [|by apply no_dash_pretty_Z..].
  by apply (inj pretty) in Heq.
Qed.

(** ** The reader: one pass over the text *)

Lemma feed_snoc r s c :
  feed r (snoc s c) =
    match feed r s with
    | Some r1 => Csv.parse_process_char r1 (Csv.Chr c)
    | None => None
    end.
Proof.
  revert r. induction s as [|x s IH]; intros r; unfold snoc in *.
  - rewrite str_app_nil_l. cbn. by destruct (Csv.parse_process_char _ _).
  - rewrite str_app_cons. cbn [feed].
    destruct (Csv.parse_process_char r (Csv.Chr x)); [apply IH|done].
Qed.

Lemma parse_line_feed r s :
  Csv.parse_line r s =
    match feed r s with
    | Some r1 => Csv.parse_process_char r1 Csv.EOL
    | None => None
    end.
Proof.
  revert r. induction s as [|x s IH]; intros r; cbn; [done|].
  destruct (Csv.parse_process_char r (Csv.Chr x)); [apply IH|done].
Qed.

Lemma records_cons r line lines :
  Csv.records r (line :: lines) =
    match feed r line with
    | Some r1 => end_of_line r1 (λ r', Csv.records r' lines)
    | None => ([], Csv.Error)
    end.
Proof.
  cbn [Csv.records]. rewrite parse_line_feed. unfold end_of_line.
  destruct (feed r line) as [r1|]; [|done].
  by destruct (Csv.parse_process_char r1 Csv.EOL).
Qed.

Lemma end_of_line_ext r k1 k2 :
  (∀ r', k1 r' = k2 r') → end_of_line r k1 = end_of_line r k2.
Proof.
  intros Hk. unfold end_of_line.
  destruct (Csv.parse_process_char r Csv.EOL); [|done].
  by rewrite !Hk.
Qed.

Lemma snoc_ne_empty s c : snoc s c ≠ EmptyString.
Proof. by destruct s. Qed.

Lemma records_scan s : ∀ r cur,
  Csv.records r (Csv.readlines_from cur s) =
    match feed r cur with
    | Some r1 => scan r1 (negb (bool_decide (cur = EmptyString))) s
    | None => ([], Csv.Error)
    end.
Proof.
  induction s as [|c s IH]; intros r cur.
  - cbn [Csv.readlines_from]. destruct cur as [|x cur].
    + done.
    + rewrite records_cons. by destruct (feed r (String x cur)).
  - cbn [Csv.readlines_from scan].
    destruct (bool_decide (c = LF)) eqn:Hlf.
    { rewrite records_cons, feed_snoc.
      feed_cases r cur c.
      apply end_of_line_ext. intros r'. by rewrite IH. }
    destruct (bool_decide (c = CR)) eqn:Hcr.
    { destruct s as [|c' s'].
      - rewrite records_cons, feed_snoc.
        destruct (feed r cur) as [r1|]; [|done].
        by destruct (Csv.parse_process_char r1 (Csv.Chr c)).
      - destruct (bool_decide (c' = LF)) eqn:Hlf'.
        + specialize (IH r (snoc cur c)).
          cbn [Csv.readlines_from] in IH. rewrite Hlf' in IH.
          rewrite IH, feed_snoc. feed_cases r cur c.
          cbn [scan]. by rewrite Hlf'.
        + rewrite records_cons, feed_snoc. feed_cases r cur c.
          apply end_of_line_ext. intros r'. by rewrite IH. }
    rewrite IH, feed_snoc. feed_cases r cur c.
    by rewrite bool_decide_eq_false_2 by apply snoc_ne_empty.
Qed.

Lemma reader_scan s : Csv.reader s = scan Csv.parse_reset false s.
Proof. unfold Csv.reader, Csv.readlines. by rewrite records_scan. Qed.

(** A text has no line just when it is empty, and then the reader yields no
    row. *)
Lemma readlines_from_nil s : ∀ cur,
  Csv.readlines_from cur s = [] → cur = EmptyString ∧ s = EmptyString.
Proof.
  induction s as [|c s IH]; intros cur Hnil.
  - by destruct cur.
  - cbn [Csv.readlines_from] in Hnil.
    case_bool_decide; [done|]. case_bool_decide.
    + destruct s as [|c' s']; [done|]. by case_bool_decide.
    + apply IH in Hnil as [Hcur _]. by apply snoc_ne_empty in Hcur.
Qed.

Lemma readlines_nil s : Csv.readlines s = [] ↔ s = EmptyString.
Proof.
  split; [|by intros ->]. by intros [_ ->]%readlines_from_nil.
Qed.

(** ** The fields the reader yields are within its limit *)

Lemma field_fits_empty : field_fits EmptyString.
Proof. by vm_compute. Qed.

Lemma str_length_snoc s c : String.length (snoc s c) = S (String.length s).
Proof. unfold snoc. rewrite str_length_app. cbn. lia. Qed.

Lemma parse_add_char_Some r c r' :
  Csv.parse_add_char r c = Some r' →
  (Z.of_nat (String.length (Csv.field r)) < Csv.field_limit)%Z ∧
  r' = Csv.mkReader (Csv.state r) (Csv.fields r) (snoc (Csv.field r) c).
Proof.
  unfold Csv.parse_add_char. case_bool_decide; [done|].
  intros [= <-]. split; [lia|done].
Qed.

Lemma parse_add_char_fits r c r' :
  reader_fits r → Csv.parse_add_char r c = Some r' → reader_fits r'.
Proof.
  intros [Hfd Hfs] [Hlt ->]%parse_add_char_Some. split; [|done].
  unfold field_fits. cbn. rewrite str_length_snoc. lia.
Qed.

Lemma add_char_then_fits r c st r' :
  reader_fits r → Csv.add_char_then r c st = Some r' → reader_fits r'.
Proof.
  intros Hr. unfold Csv.add_char_then.
  destruct (Csv.parse_add_char r c) as [r1|] eqn:Hadd; [|done].
  intros [= <-]. by apply (parse_add_char_fits r c r1).
Qed.

Lemma parse_save_field_fits r : reader_fits r → reader_fits (Csv.parse_save_field r).
Proof.
  intros [Hfd Hfs]. split; [apply field_fits_empty|].
  apply Forall_app. split; [done|]. by apply Forall_singleton.
Qed.

Lemma set_state_fits r st : reader_fits r → reader_fits (Csv.set_state r st).
Proof. done. Qed.

Lemma start_field_fits r i r' :
  reader_fits r → Csv.start_field r i = Some r' → reader_fits r'.
Proof.
  intros Hr. unfold Csv.start_field.
  destruct (Csv.ends_line i).
  { intros [= <-]. by apply set_state_fits, parse_save_field_fits. }
  destruct i as [c|]; [|by intros [= <-]].
  case_bool_decide; [by intros [= <-]|].
  case_bool_decide; [intros [= <-]; by apply parse_save_field_fits|].
  by apply add_char_then_fits.
Qed.

Lemma parse_process_char_fits r i r' :
  reader_fits r → Csv.parse_process_char r i = Some r' → reader_fits r'.
Proof.
  intros Hr. unfold Csv.parse_process_char.
  destruct (Csv.state r).
  - destruct i as [c|]; [|by intros [= <-]].
    destruct (is_newline c); [by intros [= <-]|].
    by apply start_field_fits.
  - by apply start_field_fits.
  - destruct (Csv.ends_line i).
    { intros [= <-]. by apply set_state_fits, parse_save_field_fits. }
    destruct i as [c|]; [|by intros [= <-]].
    case_bool_decide.
    + intros [= <-]. by apply set_state_fits, parse_save_field_fits.
    + by apply parse_add_char_fits.
  - destruct i as [c|]; [|by intros [= <-]].
    case_bool_decide; [by intros [= <-]|]. by apply parse_add_char_fits.
  - destruct i as [c|].
    + case_bool_decide; [by apply add_char_then_fits|].
      case_bool_decide.
      { intros [= <-]. by apply set_state_fits, parse_save_field_fits. }
      destruct (is_newline c).
      { intros [= <-]. by apply set_state_fits, parse_save_field_fits. }
      by apply add_char_then_fits.
    + intros [= <-]. by apply set_state_fits, parse_save_field_fits.
  - destruct i as [c|]; [|by intros [= <-]].
    destruct (is_newline c); [by intros [= <-]|done].
Qed.

Lemma parse_line_fits line : ∀ r r',
  reader_fits r → Csv.parse_line r line = Some r' → reader_fits r'.
Proof.
  induction line as [|c line IH]; intros r r' Hr; cbn [Csv.parse_line].
  - by apply parse_process_char_fits.
  - destruct (Csv.parse_process_char r (Csv.Chr c)) as [r1|] eqn:Hstep; [|done].
    apply IH. by apply (parse_process_char_fits r (Csv.Chr c)).
Qed.

Lemma parse_reset_fits : reader_fits Csv.parse_reset.
Proof. split; [apply field_fits_empty|apply Forall_nil_2]. Qed.

Lemma records_fit lines : ∀ r,
  reader_fits r → rows_fit (Csv.records r lines).1.
Proof.
  induction lines as [|line lines IH]; intros r Hr; cbn [Csv.records].
  - unfold Csv.at_eof. cbn [fst].
    destruct (_ || _); [|apply Forall_nil_2].
    apply Forall_singleton. by apply parse_save_field_fits.
  - destruct (Csv.parse_line r line) as [r'|] eqn:Hline; [|apply Forall_nil_2].
    pose proof (parse_line_fits line r r' Hr Hline) as [Hfd Hfs].
    case_bool_decide.
    + apply Forall_cons. split; [done|]. apply IH, parse_reset_fits.
    + by apply IH.
Qed.

(** Every field the reader yields is within the limit. *)
Lemma reader_fits_rows content : rows_fit (Csv.reader content).1.
Proof. apply records_fit, parse_reset_fits. Qed.

Lemma rows_fit_read content rows stop :
  Csv.reader content = (rows, stop) → rows_fit rows.
Proof. intros Hread. pose proof (reader_fits_rows content) as H. by rewrite Hread in H. Qed.

Lemma rows_fit_take n rows : rows_fit rows → rows_fit (take n rows).
Proof. apply Forall_take. Qed.

Lemma rows_fit_drop n rows : rows_fit rows → rows_fit (drop n rows).
Proof. apply Forall_drop. Qed.

(** ** Reading back what the writer wrote *)

Lemma field_fits_app_l a b : field_fits (a +:+ b) → field_fits a.
Proof. unfold field_fits. rewrite str_length_app. lia. Qed.

Lemma field_fits_app_cons a c b :
  field_fits (a +:+ String c b) →
  (Z.of_nat (String.length a) < Csv.field_limit)%Z ∧ field_fits (snoc a c +:+ b).
Proof.
  unfold field_fits, snoc, str1. rewrite str_app_assoc, str_app_cons, str_app_nil_l.
  rewrite str_length_app. cbn [String.length]. lia.
Qed.

Lemma add_char_fits st fs fd c :
  (Z.of_nat (String.length fd) < Csv.field_limit)%Z →
  Csv.parse_add_char (Csv.mkReader st fs fd) c =
    Some (Csv.mkReader st fs (snoc fd c)).
Proof.
  intros Hlt. unfold Csv.parse_add_char. cbn [Csv.field].
  by rewrite bool_decide_eq_false_2 by lia.
Qed.

Lemma process_quoted_char fs fd c :
  c ≠ DQUOTE →
  (Z.of_nat (String.length fd) < Csv.field_limit)%Z →
  Csv.parse_process_char (Csv.mkReader Csv.IN_QUOTED_FIELD fs fd) (Csv.Chr c) =
    Some (Csv.mkReader Csv.IN_QUOTED_FIELD fs (snoc fd c)).
Proof.
  intros Hq Hlt. unfold Csv.parse_process_char; cbn [Csv.state].
  rewrite (bool_decide_eq_false_2 _ Hq). by apply add_char_fits.
Qed.

Lemma process_quoted_quote fs fd :
  Csv.parse_process_char (Csv.mkReader Csv.IN_QUOTED_FIELD fs fd) (Csv.Chr DQUOTE) =
    Some (Csv.mkReader Csv.QUOTE_IN_QUOTED_FIELD fs fd).
Proof. done. Qed.

Lemma process_quote_quote fs fd :
  (Z.of_nat (String.length fd) < Csv.field_limit)%Z →
  Csv.parse_process_char (Csv.mkReader Csv.QUOTE_IN_QUOTED_FIELD fs fd)
    (Csv.Chr DQUOTE) =
    Some (Csv.mkReader Csv.IN_QUOTED_FIELD fs (snoc fd DQUOTE)).
Proof.
  intros Hlt. unfold Csv.parse_process_char; cbn [Csv.state].
  rewrite bool_decide_eq_true_2 by done.
  unfold Csv.add_char_then. by rewrite add_char_fits.
Qed.

(** Inside quotes every character but the quote is data, line breaks
    included. *)
Lemma scan_quoted_char fs fd p c s :
  c ≠ DQUOTE →
  (Z.of_nat (String.length fd) < Csv.field_limit)%Z →
  scan (Csv.mkReader Csv.IN_QUOTED_FIELD fs fd) p (String c s) =
  scan (Csv.mkReader Csv.IN_QUOTED_FIELD fs (snoc fd c)) (negb (is_newline c)) s.
Proof.
  intros Hq Hlt. cbn [scan]. rewrite process_quoted_char by done.
  unfold is_newline.
  case_bool_decide as Hlf; [done|].
  case_bool_decide as Hcr; [|done]. cbn [orb negb].
  destruct s as [|c' s']; [done|].
  case_bool_decide as Hlf'; [|done]. subst c'. done.
Qed.

(** One step of [scan] on a character that is no line break. *)
Lemma scan_step r r1 p c s :
  Csv.parse_process_char r (Csv.Chr c) = Some r1 →
  is_newline c = false →
  scan r p (String c s) = scan r1 true s.
Proof.
  intros Hstep Hnl. cbn [scan]. rewrite Hstep.
  unfold is_newline in Hnl. apply orb_false_iff in Hnl as [-> ->]. done.
Qed.

Lemma scan_quoted_body f : ∀ fs fd p tail,
  field_fits (fd +:+ f) →
  scan (Csv.mkReader Csv.IN_QUOTED_FIELD fs fd) p
       (Csv.copy_field f +:+ String DQUOTE tail) =
  scan (Csv.mkReader Csv.QUOTE_IN_QUOTED_FIELD fs (fd +:+ f)) true tail.
Proof.
  induction f as [|c f IH]; intros fs fd p tail Hfits.
  - rewrite str_app_nil_r, str_app_nil_l.
    by rewrite (scan_step _ _ _ _ _ (process_quoted_quote fs fd)).
  - apply field_fits_app_cons in Hfits as [Hlt Hfits].
    cbn [Csv.copy_field]. case_bool_decide as Hq.
    + subst c. rewrite !str_app_cons.
      rewrite (scan_step _ _ _ _ _ (process_quoted_quote fs fd)) by done.
      rewrite (scan_step _ _ _ _ _ (process_quote_quote fs fd Hlt)) by done.
      rewrite IH by done. unfold snoc, str1. by rewrite str_app_assoc.
    + rewrite str_app_cons, scan_quoted_char, IH by done.
      unfold snoc, str1. by rewrite str_app_assoc.
Qed.

Lemma needs_quoting_false c :
  Csv.needs_quoting c = false →
  bool_decide (c = COMMA) = false ∧ bool_decide (c = DQUOTE) = false ∧
  is_newline c = false.
Proof.
  unfold Csv.needs_quoting. rewrite !orb_false_iff. tauto.
Qed.

Lemma process_in_field_plain fs fd c :
  Csv.needs_quoting c = false →
  (Z.of_nat (String.length fd) < Csv.field_limit)%Z →
  Csv.parse_process_char (Csv.mkReader Csv.IN_FIELD fs fd) (Csv.Chr c) =
    Some (Csv.mkReader Csv.IN_FIELD fs (snoc fd c)).
Proof.
  intros (Hcomma & Hquote & Hnl)%needs_quoting_false Hlt.
  unfold Csv.parse_process_char; cbn [Csv.state Csv.ends_line].
  rewrite Hnl, Hcomma. by apply add_char_fits.
Qed.

Lemma process_start_field_plain fs fd c :
  Csv.needs_quoting c = false →
  (Z.of_nat (String.length fd) < Csv.field_limit)%Z →
  Csv.parse_process_char (Csv.mkReader Csv.START_FIELD fs fd) (Csv.Chr c) =
    Some (Csv.mkReader Csv.IN_FIELD fs (snoc fd c)).
Proof.
  intros (Hcomma & Hquote & Hnl)%needs_quoting_false Hlt.
  unfold Csv.parse_process_char, Csv.start_field; cbn [Csv.state Csv.ends_line].
  rewrite Hnl, Hcomma, Hquote. unfold Csv.add_char_then.
  by rewrite add_char_fits.
Qed.

Lemma process_start_field_quote fs fd :
  Csv.parse_process_char (Csv.mkReader Csv.START_FIELD fs fd) (Csv.Chr DQUOTE) =
    Some (Csv.mkReader Csv.IN_QUOTED_FIELD fs fd).
Proof. done. Qed.

(** Outside quotes a character that needs no quoting is data. *)
Lemma scan_plain f : ∀ fs fd p p' d tail,
  Csv.string_exists Csv.needs_quoting f = false →
  field_fits (fd +:+ f) →
  scan (Csv.mkReader Csv.IN_FIELD fs fd) p (f +:+ String d tail) =
  scan (Csv.mkReader Csv.IN_FIELD fs (fd +:+ f)) p' (String d tail).
Proof.
  induction f as [|c f IH]; intros fs fd p p' d tail Hf Hfits.
  - rewrite str_app_nil_r. done.
  - cbn [Csv.string_exists] in Hf. apply orb_false_iff in Hf as [Hc Hf].
    apply field_fits_app_cons in Hfits as [Hlt Hfits].
    rewrite str_app_cons.
    rewrite (scan_step _ _ _ _ _ (process_in_field_plain fs fd c Hc Hlt))
      by (by apply needs_quoting_false).
    rewrite (IH _ _ _ p') by done.
    unfold snoc, str1. by rewrite str_app_assoc.
Qed.

Lemma scan_field fs f p d tail :
  field_fits f →
  ∃ st, field_done st f ∧
    scan (Csv.mkReader Csv.START_FIELD fs EmptyString) p
         (Csv.join_append f +:+ String d tail) =
    scan (Csv.mkReader st fs f) true (String d tail).
Proof.
  intros Hfits. unfold Csv.join_append.
  destruct (Csv.string_exists Csv.needs_quoting f) eqn:Hf.
  - exists Csv.QUOTE_IN_QUOTED_FIELD. split; [unfold field_done; tauto|].
    unfold Csv.quoted, str1.
    rewrite str_app_cons, str_app_assoc, str_app_cons, str_app_nil_l.
    rewrite (scan_step _ _ _ _ _ (process_start_field_quote fs EmptyString))
      by done.
    by rewrite scan_quoted_body, str_app_nil_l.
  - destruct f as [|c f].
    + exists Csv.START_FIELD. split; [unfold field_done; tauto|]. done.
    + exists Csv.IN_FIELD. split; [unfold field_done; tauto|].
      cbn [Csv.string_exists] in Hf. apply orb_false_iff in Hf as [Hc Hf].
      rewrite str_app_cons.
      rewrite <- (str_app_nil_l (String c f)) in Hfits.
      apply field_fits_app_cons in Hfits as [Hlt Hfits].
      rewrite (scan_step _ _ _ _ _
                 (process_start_field_plain fs EmptyString c Hc Hlt))
        by (by apply needs_quoting_false).
      rewrite (scan_plain f _ _ _ true) by done. done.
Qed.

Lemma field_done_comma st fs f :
  field_done st f →
  Csv.parse_process_char (Csv.mkReader st fs f) (Csv.Chr COMMA) =
    Some (Csv.mkReader Csv.START_FIELD (fs ++ [f]) EmptyString).
Proof. by intros [[-> ->]|[->| ->]]. Qed.

Lemma field_done_cr st fs f :
  field_done st f →
  Csv.parse_process_char (Csv.mkReader st fs f) (Csv.Chr CR) =
    Some (Csv.mkReader Csv.EAT_CRNL (fs ++ [f]) EmptyString).
Proof. by intros [[-> ->]|[->| ->]]. Qed.

Lemma scan_fields row : ∀ fs p rest,
  row ≠ [] → row_fits row →
  scan (Csv.mkReader Csv.START_FIELD fs EmptyString) p
       (Csv.join row +:+ String CR (String LF rest)) =
  Csv.yield (fs ++ row) (scan Csv.parse_reset false rest).
Proof.
  induction row as [|f row IH]; intros fs p rest Hne Hfits; [done|].
  apply Forall_cons in Hfits as [Hf Hfits].
  destruct row as [|f2 row].
  - cbn [Csv.join].
    destruct (scan_field fs f p CR (String LF rest) Hf) as (st & Hst & ->).
    cbn [scan]. rewrite (field_done_cr _ _ _ Hst). done.
  - change (Csv.join (f :: f2 :: row))
      with (Csv.join_append f +:+ String COMMA (Csv.join (f2 :: row))).
    rewrite str_app_assoc, str_app_cons.
    destruct (scan_field fs f p COMMA
                (Csv.join (f2 :: row) +:+ String CR (String LF rest)) Hf)
      as (st & Hst & ->).
    cbn [scan]. rewrite (field_done_comma _ _ _ Hst).
    rewrite bool_decide_eq_false_2, bool_decide_eq_false_2 by done.
    rewrite IH by done. by rewrite <- app_assoc.
Qed.

Lemma scan_start_record fs fd p c s :
  is_newline c = false →
  scan (Csv.mkReader Csv.START_RECORD fs fd) p (String c s) =
  scan (Csv.mkReader Csv.START_FIELD fs fd) p (String c s).
Proof.
  intros Hnl. cbn [scan]. unfold Csv.parse_process_char; cbn. by rewrite Hnl.
Qed.

Lemma join_append_first f :
  f ≠ EmptyString →
  ∃ c s, Csv.join_append f = String c s ∧ is_newline c = false.
Proof.
  intros Hf. unfold Csv.join_append.
  destruct (Csv.string_exists Csv.needs_quoting f) eqn:Hq.
  - by eexists _, _.
  - destruct f as [|c f]; [done|]. exists c, f. split; [done|].
    cbn [Csv.string_exists] in Hq. apply orb_false_iff in Hq as [Hc _].
    by apply needs_quoting_false in Hc as (_ & _ & Hnl).
Qed.

Lemma join_append_empty f : Csv.join_append f = EmptyString → f = EmptyString.
Proof.
  unfold Csv.join_append.
  destruct (Csv.string_exists Csv.needs_quoting f); [done|tauto].
Qed.

Lemma scan_writerow row rest :
  row_fits row →
  scan Csv.parse_reset false (Csv.writerow row +:+ rest) =
  Csv.yield row (scan Csv.parse_reset false rest).
Proof.
  intros Hfits. unfold Csv.writerow, Csv.lineterminator, str1.
  destruct row as [|f [|f2 row]].
  - done.
  - cbn [Csv.join length]. rewrite (bool_decide_eq_true_2 (0 < 1)%nat) by lia.
    cbn [andb]. case_bool_decide as Hempty.
    + apply join_append_empty in Hempty as ->. done.
    + assert (f ≠ EmptyString) as Hf by (intros ->; by apply Hempty).
      destruct (join_append_first f Hf) as (c & s & Hcs & Hnl).
      rewrite str_app_assoc, !str_app_cons, str_app_nil_l.
      pose proof (scan_fields [f] [] false rest ltac:(done) Hfits) as Hscan.
      change (Csv.join [f]) with (Csv.join_append f) in Hscan.
      rewrite app_nil_l in Hscan. rewrite <- Hscan.
      rewrite Hcs, !str_app_cons. by apply scan_start_record.
  - rewrite (bool_decide_eq_false_2 (Csv.join (f :: f2 :: row) = EmptyString)).
    2:{ cbn [Csv.join]. by destruct (Csv.join_append f). }
    rewrite andb_false_r.
    rewrite str_app_assoc, !str_app_cons, str_app_nil_l.
    pose proof (scan_fields (f :: f2 :: row) [] false rest ltac:(done) Hfits)
      as Hscan.
    rewrite app_nil_l in Hscan. rewrite <- Hscan.
    change (Csv.join (f :: f2 :: row))
      with (Csv.join_append f +:+ String COMMA (Csv.join (f2 :: row))).
    destruct (decide (f = EmptyString)) as [->|Hf].
    + by apply scan_start_record.
    + destruct (join_append_first f Hf) as (c & s & Hcs & Hnl).
      rewrite Hcs, !str_app_cons. by apply scan_start_record.
Qed.

(** [csv.reader] reads back the rows [csv.writer] wrote, when their fields
    are within the limit, and stops with [StopIteration]. *)
Lemma reader_writerows rs :
  rows_fit rs → Csv.reader (Csv.writerows rs) = (rs, Csv.StopIteration).
Proof.
  intros Hfit. rewrite reader_scan. induction Hfit as [|r rs Hr Hrs IH]; [done|].
  cbn [Csv.writerows]. by rewrite scan_writerow, IH.
Qed.

(** The header and a chunk of the rows the reader read are within the
    limit. *)
Lemma chunk_fits content header rows stop n k :
  Csv.reader content = (header :: rows, stop) →
  rows_fit (header :: nth_chunk n rows k).
Proof.
  intros Hread. apply rows_fit_read in Hread.
  apply Forall_cons in Hread as [Hh Hrows].
  apply Forall_cons. split; [done|].
  unfold nth_chunk. by apply rows_fit_take, rows_fit_drop.
Qed.

(** After rows that the writer wrote, a line that begins with more
    characters than a field may hold, none of them a comma, a quote or a
    line break, makes the reader stop with an error. *)
Lemma scan_oversized a d tail :
  a ≠ EmptyString →
  Csv.string_exists Csv.needs_quoting a = false →
  Csv.needs_quoting d = false →
  Z.of_nat (String.length a) = Csv.field_limit →
  scan Csv.parse_reset false (a +:+ String d tail) = ([], Csv.Error).
Proof.
  intros Hne Ha Hd Hlen. destruct a as [|c a]; [done|].
  cbn [Csv.string_exists] in Ha. apply orb_false_iff in Ha as [Hc Ha].
  pose proof (needs_quoting_false c Hc) as (_ & _ & Hnl).
  pose proof (needs_quoting_false d Hd) as (Hdcomma & _ & Hdnl).
  rewrite str_app_cons. unfold Csv.parse_reset.
  rewrite scan_start_record by done.
  rewrite (scan_step _ _ _ _ _
             (process_start_field_plain [] EmptyString c Hc ltac:(by vm_compute)))
    by done.
  assert (field_fits (snoc EmptyString c +:+ a)) as Hfits.
  { unfold field_fits. change (snoc EmptyString c +:+ a) with (String c a). lia. }
  rewrite (scan_plain a _ _ _ true) by done.
  change (snoc EmptyString c +:+ a) with (String c a).
  cbn [scan]. unfold Csv.parse_process_char; cbn [Csv.state Csv.ends_line].
  rewrite Hdnl, Hdcomma. unfold Csv.parse_add_char; cbn [Csv.field].
  by rewrite bool_decide_eq_true_2 by lia.
Qed.

Lemma reader_oversized rs a d tail :
  rows_fit rs →
  a ≠ EmptyString →
  Csv.string_exists Csv.needs_quoting a = false →
  Csv.needs_quoting d = false →
  Z.of_nat (String.length a) = Csv.field_limit →
  Csv.reader (Csv.writerows rs +:+ (a +:+ String d tail)) = (rs, Csv.Error).
Proof.
  intros Hfit Hne Ha Hd Hlen. rewrite reader_scan.
  induction Hfit as [|r rs Hr Hrs IH].
  - rewrite str_app_nil_l. by apply scan_oversized.
  - cbn [Csv.writerows]. rewrite str_app_assoc, scan_writerow, IH by done. done.
Qed.

Lemma str_replicate_length n c : String.length (str_replicate n c) = n.
Proof. induction n as [|n IH]; [done|]. cbn. by rewrite IH. Qed.

Lemma str_replicate_plain n c :
  Csv.needs_quoting c = false →
  Csv.string_exists Csv.needs_quoting (str_replicate n c) = false.
Proof.
  intros Hc. induction n as [|n IH]; [done|]. cbn. by rewrite Hc, IH.
Qed.

(** Reading a written file back. *)
Lemma data_rows_written header chunk :
  rows_fit (header :: chunk) →
  data_rows (Csv.writerow header +:+ Csv.writerows chunk) = chunk.
Proof.
  intros Hfit. unfold data_rows.
  change (Csv.writerow header +:+ Csv.writerows chunk)
    with (Csv.writerows (header :: chunk)).
  by rewrite reader_writerows.
Qed.

Lemma header_row_written header chunk :
  rows_fit (header :: chunk) →
  header_row (Csv.writerow header +:+ Csv.writerows chunk) = Some header.
Proof.
  intros Hfit. unfold header_row.
  change (Csv.writerow header +:+ Csv.writerows chunk)
    with (Csv.writerows (header :: chunk)).
  by rewrite reader_writerows.
Qed.

(** ** Events and the file system *)

Lemma do_events_app w evs1 evs2 :
  do_events w (evs1 ++ evs2) = do_events (do_events w evs1) evs2.
Proof. unfold do_events. apply foldl_app. Qed.

Lemma log_do_events w evs : log (do_events w evs) = log w ++ evs.
Proof.
  revert w. induction evs as [|e evs IH]; intros w; cbn.
  - by rewrite app_nil_r.
  - change (foldl do_event (do_event w e) evs) with (do_events (do_event w e) evs).
    rewrite IH. destruct e; cbn; by rewrite <- app_assoc.
Qed.

Lemma written_app evs1 evs2 : written (evs1 ++ evs2) = written evs1 ++ written evs2.
Proof. apply omap_app. Qed.

Lemma stdout_app evs1 evs2 : stdout (evs1 ++ evs2) = stdout evs1 ++ stdout evs2.
Proof. apply omap_app. Qed.

Lemma written_log_print w line : written (log (print w line)) = written (log w).
Proof. cbn. rewrite written_app. cbn. by rewrite app_nil_r. Qed.

Lemma written_flat_map {A} (f : A → list Event) (g : A → Path * string) l :
  (∀ a, written (f a) = [g a]) → written (flat_map f l) = g <$> l.
Proof.
  intros Hfg. induction l as [|a l IH]; [done|].
  cbn [flat_map]. rewrite written_app, Hfg, IH. done.
Qed.

Lemma stdout_flat_map {A} (f : A → list Event) (g : A → string) l :
  (∀ a, stdout (f a) = [g a]) → stdout (flat_map f l) = g <$> l.
Proof.
  intros Hfg. induction l as [|a l IH]; [done|].
  cbn [flat_map]. rewrite stdout_app, Hfg, IH. done.
Qed.

Lemma fs_do_events_other w evs p :
  p ∉ (written evs).*1 → fs (do_events w evs) !! p = fs w !! p.
Proof.
  revert w. induction evs as [|e evs IH]; intros w Hp; [done|].
  change (do_events w (e :: evs)) with (do_events (do_event w e) evs).
  destruct e as [q c|l]; cbn in Hp.
  - apply not_elem_of_cons in Hp as [Hne Hp].
    rewrite IH by done. cbn. by apply lookup_insert_ne.
  - by rewrite IH.
Qed.

Lemma fs_do_events_written w evs p c :
  NoDup (written evs).*1 → (p, c) ∈ written evs →
  fs (do_events w evs) !! p = Some (File c).
Proof.
  revert w. induction evs as [|e evs IH]; intros w Hnd Hin; [by inversion Hin|].
  change (do_events w (e :: evs)) with (do_events (do_event w e) evs).
  destruct e as [q d|l]; cbn in Hnd, Hin.
  - apply NoDup_cons in Hnd as [Hq Hnd].
    apply elem_of_cons in Hin as [[= -> ->]|Hin].
    + rewrite fs_do_events_other by done. cbn. apply lookup_insert_eq.
    + by apply IH.
  - by apply IH.
Qed.

(** A run makes no directory: a path that is no directory stays none. *)
Lemma no_dir_do_events w evs p :
  fs w !! p ≠ Some Dir → fs (do_events w evs) !! p ≠ Some Dir.
Proof.
  revert w. induction evs as [|e evs IH]; intros w Hp; [done|].
  change (do_events w (e :: evs)) with (do_events (do_event w e) evs).
  apply IH. destruct e as [q c|l]; [|done]. cbn.
  destruct (decide (q = p)) as [->|Hne].
  - by rewrite lookup_insert_eq.
  - by rewrite lookup_insert_ne.
Qed.

Lemma dir_before w evs p :
  fs (do_events w evs) !! p = Some Dir → fs w !! p = Some Dir.
Proof.
  intros Hdir. destruct (decide (fs w !! p = Some Dir)) as [|Hp]; [done|].
  by apply (no_dir_do_events w evs p) in Hp.
Qed.

Lemma end_reason_before w evs input_file max_lines stop le :
  end_reason (do_events w evs) input_file max_lines stop le →
  end_reason w input_file max_lines stop le.
Proof.
  destruct le as [chunk_num|e]; [done|].
  intros [HN [Hcsv|[He (s & t & Hdir)]]]; (split; [done|]); [by left|].
  right. split; [done|]. exists s, t. by eapply dir_before.
Qed.

Lemma outputs_free_do_events w input_file evs :
  outputs_free w input_file → outputs_free (do_events w evs) input_file.
Proof. intros Hfree s e. apply no_dir_do_events, Hfree. Qed.

Lemma open_w_free w input_file s e :
  outputs_free w input_file → open_w w (output_file input_file s e) = None.
Proof.
  intros Hfree. unfold open_w. specialize (Hfree s e).
  by destruct (fs w !! output_file input_file s e) as [[]|].
Qed.

Lemma open_w_Some w p e :
  open_w w p = Some e → fs w !! p = Some Dir ∧ e = IsADirectoryError.
Proof.
  unfold open_w. destruct (fs w !! p) as [[]|]; [done| |done].
  by intros [= <-].
Qed.

(** A file system that holds one regular file has no directory. *)
Lemma singleton_free p content log0 input_file :
  outputs_free {| fs := {[ p := File content ]}; log := log0 |} input_file.
Proof.
  intros s e. cbn.
  destruct (decide (p = output_file input_file s e)) as [->|Hne].
  - by rewrite lookup_singleton_eq.
  - by rewrite lookup_singleton_ne.
Qed.

(** ** The inner loop *)

Lemma collect_spec n reader chunk row_num :
  collect n reader chunk row_num =
    (drop n reader, chunk ++ take n reader,
     (row_num + Z.of_nat (n `min` length reader))%Z).
Proof.
  revert reader chunk row_num.
  induction n as [|n IH]; intros reader chunk row_num; cbn [collect].
  - rewrite drop_0, take_0, app_nil_r. f_equal. lia.
  - destruct reader as [|row reader].
    + rewrite drop_nil, take_nil, app_nil_r. f_equal. cbn [length]. lia.
    + rewrite IH, <- app_assoc. cbn [drop take app length]. f_equal. lia.
Qed.

(** ** Counting chunks *)

Lemma chunk_count_0 n : (0 < n)%nat → chunk_count n 0 = 0%nat.
Proof. intros Hn. unfold chunk_count. apply Nat.div_small. lia. Qed.

Lemma chunk_count_step n H :
  (0 < n)%nat → (0 < H)%nat → chunk_count n H = S (chunk_count n (H - n)).
Proof.
  intros Hn HH. unfold chunk_count.
  destruct (decide (H ≤ n)%nat) as [Hle|Hgt].
  - replace (H - n + n - 1)%nat with (n - 1)%nat by lia.
    rewrite (Nat.div_small (n - 1)) by lia.
    symmetry. apply (Nat.div_unique _ _ 1 (H - 1)); lia.
  - replace (H + n - 1)%nat with ((H - n + n - 1) + 1 * n)%nat by lia.
    rewrite Nat.div_add by lia. lia.
Qed.

Lemma chunk_count_ceil n H :
  (0 < n)%nat →
  Z.of_nat (chunk_count n H) = ceil_div (Z.of_nat H) (Z.of_nat n).
Proof.
  intros Hn. unfold chunk_count, ceil_div.
  rewrite Nat2Z.inj_div. f_equal. lia.
Qed.

(** [ceil_div] is the ceiling of the quotient. *)
Lemma ceil_div_spec a b :
  (0 < b)%Z → ((ceil_div a b - 1) * b < a ≤ ceil_div a b * b)%Z.
Proof.
  intros Hb. unfold ceil_div.
  pose proof (Z.div_mod (a + b - 1) b ltac:(lia)) as Hdm.
  pose proof (Z.mod_pos_bound (a + b - 1) b Hb) as Hm.
  nia.
Qed.

Lemma ceil_div_unique a b c :
  (0 < b)%Z → ((c - 1) * b < a ≤ c * b)%Z → c = ceil_div a b.
Proof.
  intros Hb Hc. pose proof (ceil_div_spec a b Hb) as Hs. nia.
Qed.

Lemma count_to_nat N H :
  (1 ≤ N)%Z → Z.to_nat (ceil_div (Z.of_nat H) N) = chunk_count (Z.to_nat N) H.
Proof.
  intros HN. rewrite <- (Z2Nat.id N) at 1 by lia.
  rewrite <- chunk_count_ceil by lia. lia.
Qed.

(** ** Chunks of rows and their ranges *)

Lemma lookup_fmap_seq {A} (f : nat → A) c k x :
  (f <$> seq 0 c) !! k = Some x ↔ (k < c)%nat ∧ x = f k.
Proof.
  rewrite list_lookup_fmap. split.
  - intros Hk. destruct (seq 0 c !! k) as [j|] eqn:Hj; [|done].
    apply lookup_seq in Hj as [-> Hlt]. cbn in Hk. by injection Hk as <-.
  - intros [Hlt ->]. by rewrite (lookup_seq_lt 0 c k Hlt).
Qed.

Lemma flat_map_seq_shift {A} (f g : nat → list A) a c :
  (∀ k, (k < c)%nat → f (S (a + k)) = g (a + k)%nat) →
  flat_map f (seq (S a) c) = flat_map g (seq a c).
Proof.
  revert a. induction c as [|c IH]; intros a Hfg; [done|].
  cbn [seq flat_map]. f_equal.
  - specialize (Hfg 0%nat ltac:(lia)). by rewrite Nat.add_0_r in Hfg.
  - apply IH. intros k Hk. specialize (Hfg (S k) ltac:(lia)).
    by rewrite <- Nat.add_succ_comm in Hfg.
Qed.

Lemma nth_chunk_drop n rows k :
  nth_chunk n rows (S k) = nth_chunk n (drop n rows) k.
Proof. unfold nth_chunk. rewrite drop_drop. do 2 f_equal; lia. Qed.

Lemma concat_chunks n m : ∀ rows,
  (0 < n)%nat → (length rows ≤ m)%nat →
  concat (nth_chunk n rows <$> seq 0 (chunk_count n (length rows))) = rows.
Proof.
  induction m as [|m IH]; intros rows Hn Hlen.
  - destruct rows; [|cbn in Hlen; lia]. cbn [length]. by rewrite chunk_count_0.
  - destruct (decide (rows = [])) as [->|Hne].
    { cbn [length]. by rewrite chunk_count_0. }
    assert (0 < length rows)%nat as HH by (destruct rows; [done|cbn; lia]).
    rewrite chunk_count_step by done. cbn [seq fmap list_fmap concat].
    rewrite <- fmap_S_seq, <- list_fmap_compose.
    rewrite (list_fmap_ext (nth_chunk n rows ∘ S) (nth_chunk n (drop n rows)))
      by (intros i x _; apply nth_chunk_drop).
    rewrite <- length_drop, IH by (rewrite ?length_drop; lia).
    unfold nth_chunk. cbn [Nat.mul]. rewrite drop_0. apply take_drop.
Qed.

Lemma length_nth_chunk n rows k :
  length (nth_chunk n rows k) = (n `min` (length rows - k * n))%nat.
Proof. unfold nth_chunk. by rewrite length_take, length_drop. Qed.

(** The [k]-th chunk holds the rows of the [k]-th range. *)
Lemma nth_chunk_range N rows k :
  (0 < N)%Z →
  let r := nth_range N (Z.of_nat (length rows)) k in
  nth_chunk (Z.to_nat N) rows k =
    take (Z.to_nat (r.2 - r.1 + 1)) (drop (Z.to_nat (r.1 - 1)) rows).
Proof.
  intros HN. unfold nth_chunk, nth_range. cbn [fst snd].
  replace (Z.to_nat (Z.of_nat k * N + 1 - 1)) with (k * Z.to_nat N)%nat by nia.
  set (l := drop (k * Z.to_nat N) rows).
  assert (length l = length rows - k * Z.to_nat N)%nat as Hl
    by (unfold l; by rewrite length_drop).
  destruct (decide (Z.to_nat N ≤ length l)%nat) as [Hle|Hgt].
  - f_equal. nia.
  - rewrite !take_ge; [done|nia|lia].
Qed.

Lemma nth_range_bounds N H k :
  (1 ≤ N)%Z → (Z.of_nat k < ceil_div H N)%Z →
  let r := nth_range N H k in (1 ≤ r.1 ≤ r.2 ∧ r.2 ≤ H)%Z.
Proof.
  intros HN Hk. pose proof (ceil_div_spec H N ltac:(lia)) as Hceil.
  unfold nth_range; cbn [fst snd]. nia.
Qed.

Lemma nth_range_next N H k :
  (1 ≤ N)%Z → (Z.of_nat (S k) < ceil_div H N)%Z →
  (nth_range N H (S k)).1 = ((nth_range N H k).2 + 1)%Z.
Proof.
  intros HN Hk. pose proof (ceil_div_spec H N ltac:(lia)) as Hceil.
  unfold nth_range; cbn [fst snd]. nia.
Qed.

Lemma nth_range_last N H :
  (1 ≤ N)%Z → (1 ≤ H)%Z →
  (nth_range N H (Z.to_nat (ceil_div H N) - 1)).2 = H.
Proof.
  intros HN HH. pose proof (ceil_div_spec H N ltac:(lia)) as Hceil.
  unfold nth_range; cbn [fst snd]. nia.
Qed.

Lemma nth_range_cover N H i :
  (1 ≤ N)%Z → (1 ≤ i ≤ H)%Z →
  let k := Z.to_nat ((i - 1) / N) in
  (Z.of_nat k < ceil_div H N)%Z ∧ in_range i (nth_range N H k) ∧
  ∀ k', in_range i (nth_range N H k') → k' = k.
Proof.
  intros HN Hi k. pose proof (ceil_div_spec H N ltac:(lia)) as Hceil.
  pose proof (Z.div_mod (i - 1) N ltac:(lia)) as Hdm.
  pose proof (Z.mod_pos_bound (i - 1) N ltac:(lia)) as Hm.
  assert (0 ≤ (i - 1) / N)%Z as Hq by (apply Z.div_pos; lia).
  assert (Z.of_nat k = (i - 1) / N)%Z as Hk by (unfold k; lia).
  unfold in_range, nth_range; cbn [fst snd]. rewrite Hk.
  split; [nia|]. split; [nia|].
  intros k' [Hlo Hhi]. apply Nat2Z.inj. rewrite Hk. nia.
Qed.

Lemma nth_range_ascending N H j k :
  (1 ≤ N)%Z → (j < k)%nat → ((nth_range N H j).2 < (nth_range N H k).1)%Z.
Proof. intros HN Hjk. unfold nth_range; cbn [fst snd]. nia. Qed.

Lemma last_chunk_size N H :
  (1 ≤ N)%Z → (1 ≤ H)%Z →
  (H - (ceil_div H N - 1) * N)%Z =
    if bool_decide (H `mod` N = 0)%Z then N else (H `mod` N)%Z.
Proof.
  intros HN HH. pose proof (ceil_div_spec H N ltac:(lia)) as Hceil.
  pose proof (Z.div_mod H N ltac:(lia)) as Hdm.
  pose proof (Z.mod_pos_bound H N ltac:(lia)) as Hm.
  case_bool_decide as Hz.
  - assert (H `div` N = ceil_div H N)%Z by nia. nia.
  - assert (H `div` N = ceil_div H N - 1)%Z by nia. nia.
Qed.

(** ** The loop [while True] *)

Lemma chunk_events_shift input_file header n rows row0 k :
  (n ≤ length rows)%nat →
  chunk_events input_file header n rows row0 (S k) =
  chunk_events input_file header n (drop n rows) (row0 + Z.of_nat n) k.
Proof.
  intros Hlt. unfold chunk_events. rewrite nth_chunk_drop, length_drop.
  replace (row0 + Z.of_nat (S k) * Z.of_nat n)%Z
    with (row0 + Z.of_nat n + Z.of_nat k * Z.of_nat n)%Z by lia.
  replace ((Z.of_nat (S k) + 1) * Z.of_nat n)%Z
    with ((Z.of_nat k + 1) * Z.of_nat n + Z.of_nat n)%Z by lia.
  generalize ((Z.of_nat k + 1) * Z.of_nat n)%Z; intros x.
  replace (row0 + (x + Z.of_nat n) `min` Z.of_nat (length rows) - 1)%Z
    with (row0 + Z.of_nat n + x `min` Z.of_nat (length rows - n) - 1)%Z by lia.
  done.
Qed.

Lemma loop_events_nil input_file header n row0 :
  (0 < n)%nat → loop_events input_file header n [] row0 = [].
Proof. intros Hn. unfold loop_events. cbn [length]. by rewrite chunk_count_0. Qed.

Lemma loop_events_step input_file header n rows row0 :
  (0 < n)%nat → rows ≠ [] →
  loop_events input_file header n rows row0 =
    chunk_events input_file header n rows row0 0 ++
    loop_events input_file header n (drop n rows)
      (row0 + Z.of_nat (n `min` length rows)).
Proof.
  intros Hn Hrows. unfold loop_events.
  assert (0 < length rows)%nat as HH by (destruct rows; [done|cbn; lia]).
  rewrite (chunk_count_step n (length rows)) by done.
  cbn [seq flat_map]. f_equal. rewrite length_drop.
  destruct (decide (length rows ≤ n)%nat) as [Hle|Hgt].
  - replace (length rows - n)%nat with 0%nat by lia.
    by rewrite chunk_count_0.
  - rewrite Nat.min_l by lia.
    apply (flat_map_seq_shift _ _ 0). intros k _. cbn [Nat.add].
    apply chunk_events_shift. lia.
Qed.

Lemma collect_raises_stop n reader :
  collect_raises n reader Csv.StopIteration = false.
Proof. unfold collect_raises. apply andb_false_r. Qed.

(** One round of the loop that writes a file, as events. *)
Lemma chunk_events_first input_file header n rows row_num row chunk w :
  take n rows = row :: chunk →
  print
    (write_file w
       (output_file input_file row_num
          (row_num + Z.of_nat (n `min` length rows) - 1))
       (Csv.writerow header +:+ Csv.writerows (row :: chunk)))
    ("Created: " +:+
     str (output_file input_file row_num
            (row_num + Z.of_nat (n `min` length rows) - 1))) =
  do_events w (chunk_events input_file header n rows row_num 0).
Proof.
  intros Hchunk.
  unfold chunk_events, nth_chunk. cbn [Nat.mul drop do_events foldl do_event].
  rewrite drop_0, Hchunk.
  replace (row_num + Z.of_nat 0 * Z.of_nat n)%Z with row_num by lia.
  replace (Z.min ((Z.of_nat 0 + 1) * Z.of_nat n) (Z.of_nat (length rows)))
    with (Z.of_nat (Nat.min n (length rows))) by lia.
  done.
Qed.

(** The loop on a reader that stops with [StopIteration], when no output
    path is a directory: it leaves through [break] after the chunks. *)
Lemma while_true_closed fuel input_file max_lines header rows row_num chunk_num w :
  (0 < max_lines)%Z → (length rows < fuel)%nat →
  outputs_free w input_file →
  while_true fuel input_file max_lines header rows Csv.StopIteration
    row_num chunk_num w =
    Some (Broke (chunk_num +
                 Z.of_nat (chunk_count (Z.to_nat max_lines) (length rows)))%Z,
          do_events w (loop_events input_file header (Z.to_nat max_lines) rows row_num)).
Proof.
  intros HN. assert (0 < Z.to_nat max_lines)%nat as Hn by lia.
  revert rows row_num chunk_num w.
  induction fuel as [|fuel IH]; intros rows row_num chunk_num w Hfuel Hfree; [lia|].
  cbn [while_true]. rewrite collect_raises_stop, collect_spec. cbn [app].
  destruct (take (Z.to_nat max_lines) rows) as [|row chunk] eqn:Hchunk.
  - assert (rows = []) as ->.
    { destruct rows; [done|]. destruct (Z.to_nat max_lines); [lia|done]. }
    rewrite loop_events_nil by done. cbn [length].
    rewrite chunk_count_0 by done. do 3 f_equal. lia.
  - assert (rows ≠ []) as Hne by (intros ->; by rewrite take_nil in Hchunk).
    assert (0 < length rows)%nat as HH by (destruct rows; [done|cbn; lia]).
    rewrite (open_w_free w input_file) by done.
    rewrite (chunk_events_first _ _ _ _ _ _ _ _ Hchunk).
    rewrite IH;
      [|rewrite length_drop; lia|by apply outputs_free_do_events].
    rewrite (loop_events_step _ _ _ rows) by done.
    rewrite do_events_app, length_drop, (chunk_count_step _ (length rows)) by done.
    do 3 f_equal. lia.
Qed.

(** For a chunk size that is not positive the first round takes no row and
    leaves the loop, however the reader would stop. *)
Lemma while_true_nonpos fuel input_file max_lines header rows stop
    row_num chunk_num w :
  (max_lines ≤ 0)%Z →
  while_true (S fuel) input_file max_lines header rows stop row_num chunk_num w =
    Some (Broke chunk_num, w).
Proof.
  intros HN. cbn [while_true]. unfold collect_raises.
  replace (Z.to_nat max_lines) with 0%nat by lia.
  rewrite bool_decide_eq_false_2 by lia. done.
Qed.

Lemma first_chunk_events_step input_file header n rows row0 j :
  (j ≤ chunk_count n (length rows - n))%nat →
  (0 < n)%nat →
  first_chunk_events input_file header n rows row0 (S j) =
    chunk_events input_file header n rows row0 0 ++
    first_chunk_events input_file header n (drop n rows)
      (row0 + Z.of_nat (n `min` length rows)) j.
Proof.
  intros Hj Hn. unfold first_chunk_events. cbn [seq flat_map]. f_equal.
  destruct (decide (n ≤ length rows)%nat) as [Hle|Hgt].
  - rewrite Nat.min_l by done.
    apply (flat_map_seq_shift _ _ 0). intros k _. cbn [Nat.add].
    by apply chunk_events_shift.
  - replace (length rows - n)%nat with 0%nat in Hj by lia.
    rewrite chunk_count_0 in Hj by done.
    by replace j with 0%nat by lia.
Qed.

Lemma written_first_chunk_events input_file header n rows row0 j p c :
  (p, c) ∈ written (first_chunk_events input_file header n rows row0 j) →
  ∃ s e, p = output_file input_file s e.
Proof.
  unfold first_chunk_events.
  rewrite (written_flat_map _
             (λ k, (output_file input_file
                      (row0 + Z.of_nat k * Z.of_nat n)
                      (row0 + Z.min ((Z.of_nat k + 1) * Z.of_nat n)
                                 (Z.of_nat (length rows)) - 1),
                    Csv.writerow header +:+ Csv.writerows (nth_chunk n rows k))))
    by done.
  intros [k [[= -> _] _]]%list_elem_of_fmap. by eexists _, _.
Qed.

(** The loop ends on every reader, in every world: with more rounds than
    there are rows it leaves through [break] or raises.  By then it has
    written and announced the first chunks, all of them when it leaves
    through [break], and when it raises there is a reason. *)
Lemma while_true_ends input_file max_lines header stop m :
  ∀ rows row_num chunk_num w, (length rows ≤ m)%nat →
  ∃ le j,
    (j ≤ chunk_count (Z.to_nat max_lines) (length rows))%nat ∧
    (∀ fuel, (length rows < fuel)%nat →
       while_true fuel input_file max_lines header rows stop row_num chunk_num w =
         Some (le, do_events w
                     (first_chunk_events input_file header (Z.to_nat max_lines)
                        rows row_num j))) ∧
    (∀ c, le = Broke c → c = (chunk_num + Z.of_nat j)%Z) ∧
    end_reason w input_file max_lines stop le.
Proof.
  assert (∀ rows, collect_raises (Z.to_nat max_lines) rows stop = true →
            (1 ≤ max_lines)%Z ∧ stop = Csv.Error) as Hcsv.
  { intros rows [Hlt Hstop]%andb_prop.
    apply bool_decide_eq_true_1 in Hlt, Hstop. split; [lia|done]. }
  induction m as [|m IH]; intros rows row_num chunk_num w Hlen.
  - destruct rows; [|cbn in Hlen; lia].
    destruct (collect_raises (Z.to_nat max_lines) [] stop) eqn:Hraises.
    + exists (Threw CsvError), 0%nat.
      split; [lia|]. split; [|split; [done|]].
      * intros [|fuel] Hfuel; [cbn in Hfuel; lia|].
        cbn [while_true]. by rewrite Hraises.
      * destruct (Hcsv _ Hraises) as [HN ->]. split; [done|]. by left.
    + exists (Broke chunk_num), 0%nat.
      split; [lia|]. split; [|split; [|done]].
      * intros [|fuel] Hfuel; [cbn in Hfuel; lia|].
        cbn [while_true]. rewrite Hraises, collect_spec. by rewrite take_nil.
      * intros c [= <-]. lia.
  - destruct (collect_raises (Z.to_nat max_lines) rows stop) eqn:Hraises.
    { exists (Threw CsvError), 0%nat.
      split; [lia|]. split; [|split; [done|]].
      - intros [|fuel] Hfuel; [lia|]. cbn [while_true]. by rewrite Hraises.
      - destruct (Hcsv _ Hraises) as [HN ->]. split; [done|]. by left. }
    destruct (take (Z.to_nat max_lines) rows) as [|row chunk] eqn:Hchunk.
    { exists (Broke chunk_num), 0%nat.
      split; [lia|]. split; [|split; [|done]].
      - intros [|fuel] Hfuel; [lia|].
        cbn [while_true]. rewrite Hraises, collect_spec. cbn [app].
        by rewrite Hchunk.
      - intros c [= <-]. lia. }
    assert (0 < Z.to_nat max_lines)%nat as Hn.
    { destruct (Z.to_nat max_lines); [by rewrite take_0 in Hchunk|lia]. }
    assert (0 < length rows)%nat as HH.
    { destruct rows; [by rewrite take_nil in Hchunk|cbn; lia]. }
    set (out := output_file input_file row_num
                  (row_num + Z.of_nat (Z.to_nat max_lines `min` length rows) - 1)).
    destruct (open_w w out) as [e|] eqn:Hopen.
    { exists (Threw e), 0%nat.
      split; [lia|]. split; [|split; [done|]].
      - intros [|fuel] Hfuel; [lia|].
        cbn [while_true]. rewrite Hraises, collect_spec. cbn [app].
        rewrite Hchunk. fold out. by rewrite Hopen.
      - apply open_w_Some in Hopen as [Hdir ->]. split; [lia|].
        right. split; [done|]. by eexists _, _. }
    destruct (IH (drop (Z.to_nat max_lines) rows)
                (row_num + Z.of_nat (Z.to_nat max_lines `min` length rows))%Z
                (chunk_num + 1)%Z
                (do_events w (chunk_events input_file header (Z.to_nat max_lines)
                                rows row_num 0)))
      as (le & j & Hj & Hrun & Hcount & Hwhy).
    { rewrite length_drop. lia. }
    rewrite length_drop in Hj.
    exists le, (S j).
    split; [by rewrite (chunk_count_step _ (length rows)) by done; lia|].
    split; [|split].
    + intros [|fuel] Hfuel; [lia|].
      cbn [while_true]. rewrite Hraises, collect_spec. cbn [app].
      rewrite Hchunk. fold out. rewrite Hopen.
      unfold out. rewrite (chunk_events_first _ _ _ _ _ _ _ _ Hchunk).
      rewrite Hrun by (rewrite length_drop; lia).
      by rewrite first_chunk_events_step, do_events_app by done.
    + intros c Hc. rewrite (Hcount c Hc). lia.
    + by eapply end_reason_before.
Qed.

(** The loop on a reader that stops with an error, when no output path is a
    directory: it writes the chunks that are complete and raises. *)
Lemma full_chunk_events_small input_file header n rows row0 :
  (length rows < n)%nat → full_chunk_events input_file header n rows row0 = [].
Proof.
  intros Hlt. unfold full_chunk_events, first_chunk_events.
  by rewrite Nat.div_small.
Qed.

Lemma full_chunk_events_step input_file header n rows row0 :
  (0 < n)%nat → (n ≤ length rows)%nat →
  full_chunk_events input_file header n rows row0 =
    chunk_events input_file header n rows row0 0 ++
    full_chunk_events input_file header n (drop n rows) (row0 + Z.of_nat n).
Proof.
  intros Hn Hle. unfold full_chunk_events, first_chunk_events.
  rewrite length_drop.
  replace (length rows / n)%nat with (S ((length rows - n) / n)).
  2:{ replace (length rows) with ((length rows - n) + 1 * n)%nat at 2 by lia.
      rewrite Nat.div_add by lia. lia. }
  cbn [seq flat_map]. f_equal.
  apply (flat_map_seq_shift _ _ 0). intros k _. cbn [Nat.add].
  by apply chunk_events_shift.
Qed.

Lemma while_true_error fuel input_file max_lines header rows row_num chunk_num w :
  (0 < max_lines)%Z → (length rows < fuel)%nat →
  outputs_free w input_file →
  while_true fuel input_file max_lines header rows Csv.Error
    row_num chunk_num w =
    Some (Threw CsvError,
          do_events w
            (full_chunk_events input_file header (Z.to_nat max_lines) rows row_num)).
Proof.
  intros HN. assert (0 < Z.to_nat max_lines)%nat as Hn by lia.
  revert rows row_num chunk_num w.
  induction fuel as [|fuel IH]; intros rows row_num chunk_num w Hfuel Hfree; [lia|].
  cbn [while_true]. unfold collect_raises.
  rewrite (bool_decide_eq_true_2 (Csv.Error = Csv.Error)) by done.
  rewrite andb_true_r. case_bool_decide as Hlt.
  - by rewrite full_chunk_events_small.
  - rewrite collect_spec. cbn [app].
    destruct (take (Z.to_nat max_lines) rows) as [|row chunk] eqn:Hchunk.
    { apply (f_equal length) in Hchunk. rewrite length_take in Hchunk.
      cbn in Hchunk. lia. }
    rewrite (open_w_free w input_file) by done.
    rewrite (chunk_events_first _ _ _ _ _ _ _ _ Hchunk).
    rewrite IH; [|rewrite length_drop; lia|by apply outputs_free_do_events].
    rewrite (full_chunk_events_step _ _ _ rows) by lia.
    rewrite do_events_app. do 4 f_equal. lia.
Qed.

Lemma chunk_events_expected input_file header N rows k :
  (0 < N)%Z →
  chunk_events input_file header (Z.to_nat N) rows 1 k =
    let o := expected_output input_file header N rows k in
    [EvWrite o.1 o.2; EvPrint ("Created: " +:+ str o.1)].
Proof.
  intros HN. unfold chunk_events, expected_output, nth_range. cbn [fst snd].
  rewrite Z2Nat.id by lia.
  replace (1 + Z.of_nat k * N)%Z with (Z.of_nat k * N + 1)%Z by lia.
  replace (1 + Z.min ((Z.of_nat k + 1) * N) (Z.of_nat (length rows)) - 1)%Z
    with (Z.min ((Z.of_nat k + 1) * N) (Z.of_nat (length rows))) by lia.
  done.
Qed.

Lemma written_loop_events input_file header N rows :
  (0 < N)%Z →
  written (loop_events input_file header (Z.to_nat N) rows 1) =
    expected_output input_file header N rows <$>
      seq 0 (chunk_count (Z.to_nat N) (length rows)).
Proof.
  intros HN. unfold loop_events. apply written_flat_map.
  intros k. by rewrite chunk_events_expected.
Qed.

Lemma stdout_loop_events input_file header N rows :
  (0 < N)%Z →
  stdout (loop_events input_file header (Z.to_nat N) rows 1) =
    (λ k, "Created: " +:+ str (expected_output input_file header N rows k).1) <$>
      seq 0 (chunk_count (Z.to_nat N) (length rows)).
Proof.
  intros HN. unfold loop_events. apply stdout_flat_map.
  intros k. by rewrite chunk_events_expected.
Qed.

Lemma expected_output_NoDup input_file header N rows c :
  (0 < N)%Z → NoDup (expected_output input_file header N rows <$> seq 0 c).*1.
Proof.
  intros HN. rewrite <- list_fmap_compose.
  apply NoDup_fmap_2_strong; [|apply NoDup_seq].
  intros j k _ _ Heq. cbn in Heq.
  apply output_file_start_inj in Heq; nia.
Qed.

(** ** The run of [split_csv] on a file with a header *)

Lemma runs_to_unique run o1 o2 : runs_to run o1 → runs_to run o2 → o1 = o2.
Proof.
  intros [f1 H1] [f2 H2].
  specialize (H1 (f1 `max` f2)%nat ltac:(lia)).
  specialize (H2 (f1 `max` f2)%nat ltac:(lia)). congruence.
Qed.

(** For a chunk size that is not positive the call prints that no data
    rows were found, whatever follows the header in the file. *)
Lemma split_csv_runs_nonpos w input_file content header rows stop N :
  fs w !! input_file = Some (File content) →
  Csv.reader content = (header :: rows, stop) →
  (N ≤ 0)%Z →
  runs_to (λ fuel, split_csv fuel w input_file N)
    (Returned (print w "No data rows found in the input file")).
Proof.
  intros Hfile Hread HN. exists 1%nat. intros [|fuel] Hfuel; [lia|].
  unfold split_csv. rewrite Hfile, Hread.
  by rewrite while_true_nonpos.
Qed.

Section Run.

Context (w : World) (input_file : Path) (content : string).
Context (header : Csv.Row) (rows : list Csv.Row).
Hypothesis Hfile : fs w !! input_file = Some (File content).
Hypothesis Hread : Csv.reader content = (header :: rows, Csv.StopIteration).
Hypothesis Hfree : outputs_free w input_file.

(** For a positive chunk size the run returns; its events are those of the
    chunks followed by the summary line. *)
Lemma split_csv_runs N :
  (1 ≤ N)%Z →
  runs_to (λ fuel, split_csv fuel w input_file N)
    (Returned (do_events w
       (loop_events input_file header (Z.to_nat N) rows 1 ++
        [EvPrint (summary (ceil_div (Z.of_nat (length rows)) N))]))).
Proof.
  intros HN. exists (S (length rows)). intros fuel Hfuel.
  unfold split_csv. rewrite Hfile, Hread.
  rewrite while_true_closed by (done || lia).
  rewrite chunk_count_ceil, Z2Nat.id, Z.add_0_l by lia.
  rewrite do_events_app. unfold summary. by case_bool_decide.
Qed.

(** The outputs of the run, for a positive chunk size. *)
Lemma split_csv_outputs N :
  (1 ≤ N)%Z →
  let count := ceil_div (Z.of_nat (length rows)) N in
  ∃ evs,
    runs_to (λ fuel, split_csv fuel w input_file N) (Returned (do_events w evs)) ∧
    written evs = expected_output input_file header N rows <$> seq 0 (Z.to_nat count) ∧
    stdout evs =
      ((λ k, "Created: " +:+ str (expected_output input_file header N rows k).1) <$>
         seq 0 (Z.to_nat count)) ++ [summary count] ∧
    (∀ p c, (p, c) ∈ written evs → fs (do_events w evs) !! p = Some (File c)).
Proof.
  intros HN count.
  assert (Z.to_nat count = chunk_count (Z.to_nat N) (length rows)) as Hcount
    by (by apply count_to_nat).
  eexists. split; [by apply split_csv_runs|].
  rewrite written_app, stdout_app, written_loop_events, stdout_loop_events by lia.
  cbn [written stdout omap]. rewrite app_nil_r, Hcount.
  repeat split; try done.
  intros p c Hin. apply fs_do_events_written.
  - rewrite written_app, written_loop_events by lia. cbn [written omap].
    rewrite app_nil_r. apply expected_output_NoDup. lia.
  - by rewrite written_app, written_loop_events, app_nil_r by lia.
Qed.

Lemma split_csv_outputs_nonpos N :
  (N ≤ 0)%Z →
  ∃ evs,
    runs_to (λ fuel, split_csv fuel w input_file N) (Returned (do_events w evs)) ∧
    written evs = [] ∧
    stdout evs = ["No data rows found in the input file"].
Proof.
  intros HN. exists [EvPrint "No data rows found in the input file"].
  split; [|done]. by eapply split_csv_runs_nonpos.
Qed.

(** The written files of the run, whatever the chunk size: each is one of
    the expected outputs and is on disk. *)
Lemma split_csv_written N :
  ∃ evs,
    runs_to (λ fuel, split_csv fuel w input_file N) (Returned (do_events w evs)) ∧
    ∀ k p c, written evs !! k = Some (p, c) →
      (1 ≤ N)%Z ∧ (Z.of_nat k < ceil_div (Z.of_nat (length rows)) N)%Z ∧
      (p, c) = expected_output input_file header N rows k ∧
      fs (do_events w evs) !! p = Some (File c).
Proof.
  destruct (decide (1 ≤ N)%Z) as [HN|HN].
  - destruct (split_csv_outputs N HN) as (evs & Hrun & Hwritten & _ & Hdisk).
    exists evs. split; [done|]. intros k p c Hk.
    pose proof Hk as Hin%list_elem_of_lookup_2.
    rewrite Hwritten in Hk. apply lookup_fmap_seq in Hk as [Hlt Heq].
    split; [done|]. split; [lia|]. split; [done|]. by apply Hdisk.
  - destruct (split_csv_outputs_nonpos N ltac:(lia)) as (evs & Hrun & Hwritten & _).
    exists evs. split; [done|]. intros k p c Hk. by rewrite Hwritten in Hk.
Qed.

End Run.

(** ** What a run leaves untouched *)

Lemma main_valid fuel w input_csv content max_lines :
  fs w !! input_csv = Some (File content) →
  (1 ≤ max_lines)%Z →
  main fuel w input_csv max_lines = split_csv fuel w input_csv max_lines.
Proof.
  intros Hfile HN. unfold main, main_with, path_exists, is_file.
  rewrite Hfile. cbn. by rewrite bool_decide_eq_false_2 by lia.
Qed.

Lemma main_with_rejects split w input_csv max_lines msg :
  (path_exists w input_csv = false ∧
     msg = "Error: Input file '" +:+ str input_csv +:+ "' does not exist") ∨
  (path_exists w input_csv = true ∧ is_file w input_csv = false ∧
     msg = "Error: '" +:+ str input_csv +:+ "' is not a file") ∨
  (path_exists w input_csv = true ∧ is_file w input_csv = true ∧
     (max_lines ≤ 0)%Z ∧
     msg = "Error: --max-lines must be a positive integer") →
  main_with split w input_csv max_lines = Some (Returned (print w msg)).
Proof.
  intros Hcase. unfold main_with.
  destruct Hcase as [[Hex ->]|[(Hex & Hfile & ->)|(Hex & Hfile & HN & ->)]].
  - by rewrite Hex.
  - by rewrite Hex, Hfile.
  - rewrite Hex, Hfile. cbn. by rewrite bool_decide_eq_true_2.
Qed.

(** Every run of [split_csv] on a file with a header ends.  What it did by
    then: it wrote and announced the first chunks, and printed the summary
    line if it returned. *)
Lemma split_csv_any w input_file content header rows stop N :
  fs w !! input_file = Some (File content) →
  Csv.reader content = (header :: rows, stop) →
  ∃ o j tail,
    (j ≤ chunk_count (Z.to_nat N) (length rows))%nat ∧
    (∀ fuel, (length rows < fuel)%nat →
       split_csv fuel w input_file N = Some o) ∧
    world_of o =
      do_events w
        (first_chunk_events input_file header (Z.to_nat N) rows 1 j ++ tail) ∧
    written tail = [] ∧
    match o with
    | Returned _ => tail = [EvPrint (summary (Z.of_nat j))]
    | Raised e _ => tail = [] ∧ raise_reason w input_file N stop e
    end.
Proof.
  intros Hfile Hread.
  destruct (while_true_ends input_file N header stop (length rows) rows 1 0 w)
    as (le & j & Hj & Hrun & Hcount & Hwhy); [done|].
  destruct le as [chunk_num|e].
  - specialize (Hcount chunk_num eq_refl). rewrite Z.add_0_l in Hcount.
    subst chunk_num.
    exists (Returned (do_events w
              (first_chunk_events input_file header (Z.to_nat N) rows 1 j ++
               [EvPrint (summary (Z.of_nat j))]))),
      j, [EvPrint (summary (Z.of_nat j))].
    split; [done|]. split; [|done].
    intros fuel Hfuel. unfold split_csv. rewrite Hfile, Hread, Hrun by done.
    rewrite do_events_app. unfold summary. by case_bool_decide.
  - exists (Raised e (do_events w
              (first_chunk_events input_file header (Z.to_nat N) rows 1 j))),
      j, [].
    split; [done|]. split; [|by rewrite app_nil_r].
    intros fuel Hfuel. unfold split_csv. by rewrite Hfile, Hread, Hrun by done.
Qed.

Lemma written_first_chunk_events_expected input_file header N rows j :
  (1 ≤ N)%Z →
  written (first_chunk_events input_file header (Z.to_nat N) rows 1 j) =
    expected_output input_file header N rows <$> seq 0 j.
Proof.
  intros HN. unfold first_chunk_events. apply written_flat_map.
  intros k. by rewrite chunk_events_expected by lia.
Qed.

(** The files of a run of [split_csv] on a file with a header, however the
    run ends: they are the first of the expected outputs, and they are on
    disk. *)
Lemma split_csv_files w input_file content header rows stop N :
  fs w !! input_file = Some (File content) →
  Csv.reader content = (header :: rows, stop) →
  ∃ o evs j,
    (∀ fuel, (length rows < fuel)%nat →
       split_csv fuel w input_file N = Some o) ∧
    world_of o = do_events w evs ∧
    written evs = expected_output input_file header N rows <$> seq 0 j ∧
    ((0 < j)%nat →
       (1 ≤ N)%Z ∧ (Z.of_nat j ≤ ceil_div (Z.of_nat (length rows)) N)%Z) ∧
    (∀ p c, (p, c) ∈ written evs → fs (do_events w evs) !! p = Some (File c)).
Proof.
  intros Hfile Hread.
  destruct (split_csv_any w input_file content header rows stop N Hfile Hread)
    as (o & j & tail & Hj & Hrun & Hw & Htail & _).
  exists o, (first_chunk_events input_file header (Z.to_nat N) rows 1 j ++ tail), j.
  split; [done|]. split; [done|].
  destruct (decide (1 ≤ N)%Z) as [HN|HN].
  - assert (written (first_chunk_events input_file header (Z.to_nat N) rows 1 j
                     ++ tail) =
            expected_output input_file header N rows <$> seq 0 j) as Hwritten.
    { by rewrite written_app, Htail, app_nil_r,
        written_first_chunk_events_expected. }
    split; [done|]. split.
    + intros _. split; [done|].
      pose proof (chunk_count_ceil (Z.to_nat N) (length rows) ltac:(lia)) as Hc.
      rewrite Z2Nat.id in Hc by lia. lia.
    + intros p c Hin. apply fs_do_events_written; [|done].
      rewrite Hwritten. apply expected_output_NoDup. lia.
  - replace (Z.to_nat N) with 0%nat in * by lia.
    assert (j = 0%nat) as -> by (unfold chunk_count in Hj; cbn in Hj; lia).
    cbn [first_chunk_events seq flat_map app fmap list_fmap].
    rewrite Htail. split; [done|]. split; [lia|].
    by intros p c Hin; inversion Hin.
Qed.

(** Every run of [split_csv] ends, and all it writes are output files of the
    input. *)
Lemma split_csv_frame w input_file N :
  ∃ o evs,
    runs_to (λ fuel, split_csv fuel w input_file N) o ∧
    world_of o = do_events w evs ∧
    ∀ p c, (p, c) ∈ written evs → ∃ s e, p = output_file input_file s e.
Proof.
  destruct (fs w !! input_file) as [[content|]|] eqn:Hfile.
  - destruct (Csv.reader content) as [[|header rows] stop] eqn:Hread.
    + destruct stop.
      * exists (Returned (print w "Error: Input file is empty")),
          [EvPrint "Error: Input file is empty"].
        ends_at_once. by rewrite Hfile, Hread.
      * exists (Raised CsvError w), []. ends_at_once. by rewrite Hfile, Hread.
    + destruct (split_csv_any w input_file content header rows stop N Hfile Hread)
        as (o & j & tail & _ & Hrun & Hw & Htail & _).
      exists o, (first_chunk_events input_file header (Z.to_nat N) rows 1 j ++ tail).
      split; [by exists (S (length rows)); intros fuel Hfuel; apply Hrun; lia|].
      split; [done|].
      intros p c Hin. rewrite written_app, Htail, app_nil_r in Hin.
      by eapply written_first_chunk_events.
  - exists (Raised IsADirectoryError w), []. ends_at_once. by rewrite Hfile.
  - exists (Raised FileNotFoundError w), []. ends_at_once. by rewrite Hfile.
Qed.

Lemma main_frame w input_csv max_lines :
  ∃ o evs,
    runs_to (λ fuel, main fuel w input_csv max_lines) o ∧
    world_of o = do_events w evs ∧
    ∀ p c, (p, c) ∈ written evs → ∃ s e, p = output_file input_csv s e.
Proof.
  assert (∀ msg, (∀ fuel, main fuel w input_csv max_lines =
                          Some (Returned (print w msg))) →
          ∃ o evs, runs_to (λ fuel, main fuel w input_csv max_lines) o ∧
            world_of o = do_events w evs ∧
            ∀ p c, (p, c) ∈ written evs → ∃ s e, p = output_file input_csv s e)
    as Hmsg.
  { intros msg Hmain. exists (Returned (print w msg)), [EvPrint msg].
    split; [by exists 0%nat|]. split; [done|]. by intros p c Hin; inversion Hin. }
  destruct (path_exists w input_csv) eqn:Hex.
  2:{ eapply Hmsg. intros fuel. apply main_with_rejects. left. by split. }
  destruct (is_file w input_csv) eqn:Hfile.
  2:{ eapply Hmsg. intros fuel. apply main_with_rejects. right; left. by split. }
  destruct (decide (max_lines ≤ 0)%Z) as [HN|HN].
  { eapply Hmsg. intros fuel. apply main_with_rejects.
    right; right. by repeat split. }
  destruct (split_csv_frame w input_csv max_lines) as (o & evs & Hrun & Hw & Hout).
  exists o, evs. split; [|done].
  destruct Hrun as [fuel0 Hfuel0]. exists fuel0. intros fuel Hfuel.
  unfold main, main_with. rewrite Hex, Hfile. cbn.
  rewrite bool_decide_eq_false_2 by done. by apply Hfuel0.
Qed.

Lemma frame_of_outputs w input_file evs :
  (∀ p c, (p, c) ∈ written evs → ∃ s e, p = output_file input_file s e) →
  fs (do_events w evs) !! input_file = fs w !! input_file ∧
  ∀ p, fs (do_events w evs) !! p ≠ fs w !! p →
    p ≠ input_file ∧ ∃ s e, p = output_file input_file s e.
Proof.
  intros Hout.
  assert (input_file ∉ (written evs).*1) as Hnotin.
  { intros [[p c] [Hp Hin]]%list_elem_of_fmap. cbn in Hp. subst p.
    destruct (Hout _ _ Hin) as (s & e & Heq).
    by apply (output_file_ne_input input_file s e). }
  split; [by apply fs_do_events_other|].
  intros p Hp.
  destruct (decide (p ∈ (written evs).*1)) as [Hin|Hnin].
  - apply list_elem_of_fmap in Hin as [[q c] [Hq Hin]]. cbn in Hq. subst q.
    split; [|by eapply Hout].
    intros ->. apply Hnotin, list_elem_of_fmap. by exists (input_file, c).
  - by rewrite fs_do_events_other in Hp.
Qed.

(** * The test suite, run on the model

    Each test, with its input made by the helper in a directory that holds
    nothing else, and what it asserts: the exit status, the lines printed,
    the names of the files created and what [read_csv_file] reads back. *)

Example test_split_file_with_just_header :
  let input_file := test_file "header_only.csv" in
  (w ← create_csv_file dir_world input_file ["Name"; "Age"; "City"] [];
   o ← run_split_csv w input_file 5;
   Some (returncode o, printed o, created o)) =
    Some (0%Z, ["No data rows found in the input file"], []).
Proof. vm_compute. reflexivity. Qed.

Example test_split_empty_file :
  let input_file := test_file "empty.csv" in
  let w := {| fs := {[ input_file := File EmptyString ]}; log := [] |} in
  (o ← run_split_csv w input_file 5;
   Some (returncode o, printed o, created o)) =
    Some (0%Z, ["Error: Input file is empty"], []).
Proof. vm_compute. reflexivity. Qed.

Example test_split_file_with_exactly_max_lines :
  let input_file := test_file "exact.csv" in
  let headers := ["ID"; "Name"; "Value"] in
  (w ← create_csv_file dir_world input_file headers (test_rows 5);
   o ← run_split_csv w input_file 5;
   Some (returncode o, printed o, created o,
         read_csv_file (world_of o) (test_file "exact.1-5.csv"))) =
    Some (0%Z,
          ["Created: /tmp/exact.1-5.csv"; "Split complete: Created 1 files"],
          ["exact.1-5.csv"],
          Some (headers, test_rows 5)).
Proof. vm_compute. reflexivity. Qed.

Example test_split_file_larger_than_max_lines :
  let input_file := test_file "large.csv" in
  let headers := ["ID"; "Name"; "Value"] in
  let rows := test_rows 15 in
  (w ← create_csv_file dir_world input_file headers rows;
   o ← run_split_csv w input_file 5;
   Some (returncode o, last (printed o), created o,
         read_csv_file (world_of o) (test_file "large.1-5.csv"),
         read_csv_file (world_of o) (test_file "large.6-10.csv"),
         read_csv_file (world_of o) (test_file "large.11-15.csv"))) =
    Some (0%Z, Some "Split complete: Created 3 files",
          ["large.1-5.csv"; "large.6-10.csv"; "large.11-15.csv"],
          Some (headers, slice 0 5 rows),
          Some (headers, slice 5 10 rows),
          Some (headers, slice 10 15 rows)).
Proof. vm_compute. reflexivity. Qed.

Example test_split_file_not_evenly_divisible :
  let input_file := test_file "uneven.csv" in
  let headers := ["ID"; "Name"; "Value"] in
  let rows := test_rows 12 in
  (w ← create_csv_file dir_world input_file headers rows;
   o ← run_split_csv w input_file 5;
   Some (returncode o, last (printed o), created o,
         read_csv_file (world_of o) (test_file "uneven.11-12.csv"))) =
    Some (0%Z, Some "Split complete: Created 3 files",
          ["uneven.1-5.csv"; "uneven.6-10.csv"; "uneven.11-12.csv"],
          Some (headers, slice 10 12 rows)).
Proof. vm_compute. reflexivity. Qed.

Example test_invalid_max_lines :
  let input_file := test_file "test.csv" in
  (w ← create_csv_file dir_world input_file ["A"; "B"] [["1"; "2"]];
   o ← run_split_csv w input_file 0;
   Some (returncode o, printed o, created o)) =
    Some (0%Z, ["Error: --max-lines must be a positive integer"], []) ∧
  (w ← create_csv_file dir_world input_file ["A"; "B"] [["1"; "2"]];
   o ← run_split_csv w input_file (-5);
   Some (returncode o, printed o, created o)) =
    Some (0%Z, ["Error: --max-lines must be a positive integer"], []).
Proof. split; vm_compute; reflexivity. Qed.

Example test_nonexistent_input_file :
  (o ← run_split_csv dir_world (test_file "nonexistent.csv") 5;
   Some (returncode o, printed o, created o)) =
    Some (0%Z, ["Error: Input file '/tmp/nonexistent.csv' does not exist"], []).
Proof. vm_compute. reflexivity. Qed.

(** A directory where the first output file would go: the run raises
    before it writes, and the exit status is not [0]. *)
Example directory_at_output :
  let input_file := test_file "uneven.csv" in
  let w := {| fs := {[ test_file "uneven.1-5.csv" := Dir ]}; log := [] |} in
  (w ← create_csv_file w input_file ["ID"; "Name"; "Value"] (test_rows 12);
   o ← run_split_csv w input_file 5;
   Some (o, returncode o, printed o, created o)) =
  (w ← create_csv_file w input_file ["ID"; "Name"; "Value"] (test_rows 12);
   Some (Raised IsADirectoryError w, 1%Z, [], [])).
Proof. vm_compute. reflexivity. Qed.

(** The fields of the sample are within the limit. *)
Lemma sample_rows_fit : rows_fit (sample_header :: sample_rows).
Proof.
  apply (rows_fit_read sample_content _ Csv.StopIteration).
  vm_compute. reflexivity.
Qed.

(** The reader on a field of one character more than the limit, alone and
    after rows that the writer wrote: it yields the rows and stops with an
    error. *)
Lemma limit_replicate :
  str_replicate (Z.to_nat Csv.field_limit) "x" ≠ EmptyString ∧
  Csv.string_exists Csv.needs_quoting
    (str_replicate (Z.to_nat Csv.field_limit) "x") = false ∧
  Z.of_nat (String.length (str_replicate (Z.to_nat Csv.field_limit) "x")) =
    Csv.field_limit.
Proof.
  split; [|split].
  - assert (0 < Z.to_nat Csv.field_limit)%nat as Hpos
      by (unfold Csv.field_limit; lia).
    destruct (Z.to_nat Csv.field_limit); [lia|done].
  - by apply str_replicate_plain.
  - rewrite str_replicate_length. unfold Csv.field_limit. lia.
Qed.


Lemma reader_oversized_field rs :
  rows_fit rs →
  Csv.reader (Csv.writerows rs +:+ oversized_field) = (rs, Csv.Error).
Proof.
  intros Hfit. destruct limit_replicate as (Hne & Hplain & Hlen).
  unfold oversized_field. by apply reader_oversized.
Qed.

Lemma reader_oversized_content :
  Csv.reader oversized_content = (sample_header :: sample_rows, Csv.Error).
Proof. apply reader_oversized_field, sample_rows_fit. Qed.


(** The reader on a text that no writer wrote: LF line ends, a needless
    quote, a blank line, a quoted line break, no line end at the end. *)
Example reader_by_hand :
  Csv.reader (Csv.quoted "a" +:+ ",b" +:+ str1 LF +:+ str1 LF +:+
              "1," +:+ Csv.quoted ("x" +:+ str1 LF +:+ "y") +:+ str1 LF +:+ "2,") =
    ([["a"; "b"]; []; ["1"; "x" +:+ str1 LF +:+ "y"]; ["2"; ""]],
     Csv.StopIteration).
Proof. vm_compute. reflexivity. Qed.

(** The writer quotes what holds a comma, a quote or a line break, doubles
    the quotes, and writes a lone empty field as a pair of quotes. *)
Example writer_by_hand :
  Csv.writerows [["a"; "b,c"]; []; [""]; [""; "x"]; [str1 DQUOTE]] =
    "a," +:+ Csv.quoted "b,c" +:+ Csv.lineterminator +:+
    Csv.lineterminator +:+
    Csv.quoted "" +:+ Csv.lineterminator +:+
    ",x" +:+ Csv.lineterminator +:+
    String DQUOTE (String DQUOTE (String DQUOTE (str1 DQUOTE))) +:+
    Csv.lineterminator.
Proof. vm_compute. reflexivity. Qed.


(** * The claims *)

(** C1.  A file that the reader reads to its end, with [H] data rows, a
    chunk size [N ≥ 1], and no directory where an output file goes: the run
    returns having written exactly [ceil (H / N)] files, none when [H = 0];
    they are distinct and on disk.  The counter [chunk_num] the loop hands
    to the completion report is that number; the last line printed is the
    summary with that count when there are rows, and the line that no data
    rows were found when there are none. *)
Theorem split_csv_file_count w input_file content header rows N :
  fs w !! input_file = Some (File content) →
  Csv.reader content = (header :: rows, Csv.StopIteration) →
  outputs_free w input_file →
  (1 ≤ N)%Z →
  let H := Z.of_nat (length rows) in
  ∃ evs,
    runs_to (λ fuel, split_csv fuel w input_file N) (Returned (do_events w evs)) ∧
    Z.of_nat (length (written evs)) = ceil_div H N ∧
    ((ceil_div H N - 1) * N < H ≤ ceil_div H N * N)%Z ∧
    (H = 0%Z → written evs = []) ∧
    NoDup (written evs).*1 ∧
    (∀ p c, (p, c) ∈ written evs → fs (do_events w evs) !! p = Some (File c)) ∧
    (∃ w1, ∀ fuel, (length rows < fuel)%nat →
       while_true fuel input_file N header rows Csv.StopIteration 1 0 w =
         Some (Broke (ceil_div H N), w1)) ∧
    last (stdout evs) =
      Some (if bool_decide (H = 0%Z)
            then "No data rows found in the input file"
            else "Split complete: Created " +:+ pretty (ceil_div H N) +:+ " files").
Proof.
  intros Hfile Hread Hfree HN H.
  destruct (split_csv_outputs w input_file content header rows Hfile Hread Hfree
              N HN)
    as (evs & Hrun & Hwritten & Hstdout & Hdisk).
  pose proof (ceil_div_spec H N ltac:(lia)) as Hceil.
  exists evs. split; [done|].
  split; [|split; [done|split; [|split; [|split; [|split]]]]].
  - rewrite Hwritten, length_fmap, length_seq. fold H. nia.
  - intros HH. rewrite Hwritten. fold H.
    replace (ceil_div H N) with 0%Z by nia. done.
  - rewrite Hwritten. apply expected_output_NoDup. lia.
  - done.
  - eexists. intros fuel Hfuel. rewrite while_true_closed by (done || lia).
    rewrite chunk_count_ceil, Z2Nat.id, Z.add_0_l by lia. done.
  - rewrite Hstdout, last_snoc. fold H. unfold summary. f_equal.
    case_bool_decide; case_bool_decide; try done; nia.
Qed.

Lemma split_csv_file_count_witness :
  fs sample_world !! sample_path = Some (File sample_content) ∧
  Csv.reader sample_content = (sample_header :: sample_rows, Csv.StopIteration) ∧
  let H := Z.of_nat (length sample_rows) in
  ∃ evs,
    runs_to (λ fuel, split_csv fuel sample_world sample_path 5)
      (Returned (do_events sample_world evs)) ∧
    Z.of_nat (length (written evs)) = ceil_div H 5 ∧
    ((ceil_div H 5 - 1) * 5 < H ≤ ceil_div H 5 * 5)%Z ∧
    (H = 0%Z → written evs = []) ∧
    NoDup (written evs).*1 ∧
    (∀ p c, (p, c) ∈ written evs →
       fs (do_events sample_world evs) !! p = Some (File c)) ∧
    (∃ w1, ∀ fuel, (length sample_rows < fuel)%nat →
       while_true fuel sample_path 5 sample_header sample_rows Csv.StopIteration
         1 0 sample_world = Some (Broke (ceil_div H 5), w1)) ∧
    last (stdout evs) =
      Some (if bool_decide (H = 0%Z)
            then "No data rows found in the input file"
            else "Split complete: Created " +:+ pretty (ceil_div H 5) +:+ " files").
Proof.
  split; [|split].
  - vm_compute. reflexivity.
  - vm_compute. reflexivity.
  - apply (split_csv_file_count sample_world sample_path sample_content
             sample_header sample_rows 5).
    + vm_compute. reflexivity.
    + vm_compute. reflexivity.
    + apply singleton_free.
    + lia.
Defined.

(** C2.  With [H ≥ 1] rows in a file that the reader reads to its end,
    [N ≥ 1], and no directory where an output file goes: the run returns, and
    the files are named, in the order of their creation, after the ranges
    [k*N + 1 .. min ((k+1)*N) H] for [k = 0, 1, ...]; each range is a
    non-empty interval inside [1 .. H] and its file holds just the rows of
    the interval; the first range starts at [1], each next one starts right
    after the one before, the last ends at [H]; so every row number of
    [1 .. H] lies in exactly one range. *)
Theorem split_csv_row_ranges w input_file content header rows N :
  fs w !! input_file = Some (File content) →
  Csv.reader content = (header :: rows, Csv.StopIteration) →
  outputs_free w input_file →
  (1 ≤ N)%Z →
  (1 ≤ Z.of_nat (length rows))%Z →
  let H := Z.of_nat (length rows) in
  let ranges := nth_range N H <$> seq 0 (Z.to_nat (ceil_div H N)) in
  ∃ evs,
    runs_to (λ fuel, split_csv fuel w input_file N) (Returned (do_events w evs)) ∧
    (written evs).*1 = (λ r, output_file input_file r.1 r.2) <$> ranges ∧
    (∀ k r, ranges !! k = Some r →
       r = (Z.of_nat k * N + 1, Z.min ((Z.of_nat k + 1) * N) H)%Z ∧
       (1 ≤ r.1 ≤ r.2 ∧ r.2 ≤ H)%Z ∧
       (written evs).*2 !! k =
         Some (Csv.writerow header +:+
               Csv.writerows (take (Z.to_nat (r.2 - r.1 + 1))
                                   (drop (Z.to_nat (r.1 - 1)) rows)))) ∧
    (∀ r, head ranges = Some r → r.1 = 1%Z) ∧
    (∀ k r r', ranges !! k = Some r → ranges !! S k = Some r' →
       r'.1 = (r.2 + 1)%Z) ∧
    (∀ r, last ranges = Some r → r.2 = H) ∧
    (∀ i, (1 ≤ i ≤ H)%Z →
       ∃ k r, ranges !! k = Some r ∧ in_range i r ∧
         ∀ k' r', ranges !! k' = Some r' → in_range i r' → k' = k).
Proof.
  intros Hfile Hread Hfree HN HH H ranges.
  destruct (split_csv_outputs w input_file content header rows Hfile Hread Hfree
              N HN)
    as (evs & Hrun & Hwritten & _ & _).
  fold H in Hwritten.
  pose proof (ceil_div_spec H N ltac:(lia)) as Hceil.
  exists evs. split; [done|]. split; [|split; [|split; [|split; [|split]]]].
  - rewrite Hwritten. unfold ranges.
    rewrite <- !list_fmap_compose. done.
  - intros k r [Hk ->]%lookup_fmap_seq. split; [done|].
    split; [apply nth_range_bounds; lia|].
    rewrite Hwritten, <- list_fmap_compose.
    apply lookup_fmap_seq. split; [done|]. cbn.
    by rewrite (nth_chunk_range N rows k) by lia.
  - intros r Hr. rewrite head_lookup in Hr.
    apply lookup_fmap_seq in Hr as [_ ->]. unfold nth_range; cbn. lia.
  - intros k r r' [Hk ->]%lookup_fmap_seq [Hk' ->]%lookup_fmap_seq.
    apply nth_range_next; lia.
  - intros r Hr. rewrite last_lookup in Hr.
    apply lookup_fmap_seq in Hr as [_ ->].
    unfold ranges. rewrite length_fmap, length_seq.
    replace (Nat.pred (Z.to_nat (ceil_div H N)))
      with (Z.to_nat (ceil_div H N) - 1)%nat by lia.
    apply nth_range_last; lia.
  - intros i Hi.
    destruct (nth_range_cover N H i HN Hi) as (Hk & Hin & Huniq).
    revert Hk Hin Huniq. generalize (Z.to_nat ((i - 1) / N)).
    intros k Hk Hin Huniq.
    exists k, (nth_range N H k). split; [|split; [exact Hin|]].
    + apply lookup_fmap_seq. split; [lia|done].
    + intros k' r' [_ ->]%lookup_fmap_seq Hin'. by apply Huniq.
Qed.

Lemma split_csv_row_ranges_witness :
  let H := Z.of_nat (length sample_rows) in
  let ranges := nth_range 5 H <$> seq 0 (Z.to_nat (ceil_div H 5)) in
  ranges = [(1, 5); (6, 10); (11, 12)]%Z ∧
  ∃ evs,
    runs_to (λ fuel, split_csv fuel sample_world sample_path 5)
      (Returned (do_events sample_world evs)) ∧
    (written evs).*1 = (λ r, output_file sample_path r.1 r.2) <$> ranges ∧
    (∀ k r, ranges !! k = Some r →
       r = (Z.of_nat k * 5 + 1, Z.min ((Z.of_nat k + 1) * 5) H)%Z ∧
       (1 ≤ r.1 ≤ r.2 ∧ r.2 ≤ H)%Z ∧
       (written evs).*2 !! k =
         Some (Csv.writerow sample_header +:+
               Csv.writerows (take (Z.to_nat (r.2 - r.1 + 1))
                                   (drop (Z.to_nat (r.1 - 1)) sample_rows)))) ∧
    (∀ r, head ranges = Some r → r.1 = 1%Z) ∧
    (∀ k r r', ranges !! k = Some r → ranges !! S k = Some r' →
       r'.1 = (r.2 + 1)%Z) ∧
    (∀ r, last ranges = Some r → r.2 = H) ∧
    (∀ i, (1 ≤ i ≤ H)%Z →
       ∃ k r, ranges !! k = Some r ∧ in_range i r ∧
         ∀ k' r', ranges !! k' = Some r' → in_range i r' → k' = k).
Proof.
  split; [vm_compute; reflexivity|].
  apply (split_csv_row_ranges sample_world sample_path sample_content
           sample_header sample_rows 5).
  - vm_compute. reflexivity.
  - vm_compute. reflexivity.
  - apply singleton_free.
  - lia.
  - vm_compute. discriminate.
Defined.

(** C3.  With [H ≥ 1] rows in a file that the reader reads to its end,
    [N ≥ 1], and no directory where an output file goes: the run returns, the
    files are on disk, they were created in ascending order of their ranges,
    and the data rows read back from them with [csv.reader], concatenated in
    that order, are the data rows of the input, field by field. *)
Theorem split_csv_concat w input_file content header rows N :
  fs w !! input_file = Some (File content) →
  Csv.reader content = (header :: rows, Csv.StopIteration) →
  outputs_free w input_file →
  (1 ≤ N)%Z →
  (1 ≤ Z.of_nat (length rows))%Z →
  let H := Z.of_nat (length rows) in
  ∃ evs,
    runs_to (λ fuel, split_csv fuel w input_file N) (Returned (do_events w evs)) ∧
    (∀ p c, (p, c) ∈ written evs → fs (do_events w evs) !! p = Some (File c)) ∧
    (∀ k p c, written evs !! k = Some (p, c) →
       p = output_file input_file (nth_range N H k).1 (nth_range N H k).2) ∧
    (∀ j k, (j < k)%nat → ((nth_range N H j).2 < (nth_range N H k).1)%Z) ∧
    concat (data_rows <$> (written evs).*2) = rows ∧
    data_rows content = rows.
Proof.
  intros Hfile Hread Hfree HN HH H.
  destruct (split_csv_outputs w input_file content header rows Hfile Hread Hfree
              N HN)
    as (evs & Hrun & Hwritten & _ & Hdisk).
  exists evs. split; [done|]. split; [done|]. split; [|split; [|split]].
  - intros k p c Hk. rewrite Hwritten in Hk.
    apply lookup_fmap_seq in Hk as [_ Heq]. by injection Heq as -> _.
  - intros j k Hjk. by apply nth_range_ascending.
  - rewrite Hwritten, <- !list_fmap_compose.
    rewrite (list_fmap_ext _ (nth_chunk (Z.to_nat N) rows))
      by (intros i k _; by eapply data_rows_written, chunk_fits).
    rewrite count_to_nat by done.
    by apply (concat_chunks _ (length rows)); [lia|].
  - unfold data_rows. by rewrite Hread.
Qed.

Lemma split_csv_concat_witness :
  let H := Z.of_nat (length sample_rows) in
  ∃ evs,
    runs_to (λ fuel, split_csv fuel sample_world sample_path 5)
      (Returned (do_events sample_world evs)) ∧
    (∀ p c, (p, c) ∈ written evs →
       fs (do_events sample_world evs) !! p = Some (File c)) ∧
    (∀ k p c, written evs !! k = Some (p, c) →
       p = output_file sample_path (nth_range 5 H k).1 (nth_range 5 H k).2) ∧
    (∀ j k, (j < k)%nat → ((nth_range 5 H j).2 < (nth_range 5 H k).1)%Z) ∧
    concat (data_rows <$> (written evs).*2) = sample_rows ∧
    data_rows sample_content = sample_rows.
Proof.
  apply (split_csv_concat sample_world sample_path sample_content
           sample_header sample_rows 5).
  - vm_compute. reflexivity.
  - vm_compute. reflexivity.
  - apply singleton_free.
  - lia.
  - vm_compute. discriminate.
Defined.

(** C4, as stated, fails: the header is parsed and written anew, so its
    quoting is the writer's.  The input [quoted_content] has the header line
    with its first field in quotes; the file written for it has the header
    line without those quotes. *)
Lemma header_not_byte_identical :
  header_row quoted_content = Some ["Name"; "Age"] ∧
  first_row_text quoted_content =
    Some (Csv.quoted "Name" +:+ ",Age" +:+ Csv.lineterminator) ∧
  (∃ w' p c,
     split_csv 2 quoted_world sample_path 5 = Some (Returned w') ∧
     written (log w') = [(p, c)] ∧
     header_row c = Some ["Name"; "Age"] ∧
     first_row_text c = Some ("Name,Age" +:+ Csv.lineterminator)) ∧
  ¬ header_bytes_copied quoted_world sample_path 5.
Proof.
  assert (∃ w' p c,
     split_csv 2 quoted_world sample_path 5 = Some (Returned w') ∧
     written (log w') = [(p, c)] ∧
     header_row c = Some ["Name"; "Age"] ∧
     first_row_text c = Some ("Name,Age" +:+ Csv.lineterminator)) as Hrun.
  { eexists _, _, _. split; [vm_compute; reflexivity|].
    split; [vm_compute; reflexivity|].
    split; vm_compute; reflexivity. }
  split; [vm_compute; reflexivity|]. split; [vm_compute; reflexivity|].
  split; [exact Hrun|].
  destruct Hrun as (w' & p & c & Hrun & Hwritten & _ & Hfirst).
  intros Hcopied.
  specialize (Hcopied quoted_content 2%nat w' p c).
  rewrite Hfirst in Hcopied.
  assert (Some ("Name,Age" +:+ Csv.lineterminator) = first_row_text quoted_content)
    as Habsurd.
  { apply Hcopied; [vm_compute; reflexivity|exact Hrun|].
    rewrite Hwritten. apply list_elem_of_here. }
  vm_compute in Habsurd. discriminate.
Qed.

(** C4, amended.  For a file in which the reader finds a header, whatever
    follows it, whatever the chunk size and however the run ends: every
    file written is on disk, begins with the header of the input as
    [csv.writer] writes it, and read back with [csv.reader] has as its first
    row the field values of the input's header.  When the input itself
    begins with the header as the writer writes it, the file begins with the
    same bytes. *)
Theorem output_header_fields w input_file content header rows stop N :
  fs w !! input_file = Some (File content) →
  Csv.reader content = (header :: rows, stop) →
  ∃ o evs,
    runs_to (λ fuel, split_csv fuel w input_file N) o ∧
    world_of o = do_events w evs ∧
    header_row content = Some header ∧
    ∀ p c, (p, c) ∈ written evs →
      fs (do_events w evs) !! p = Some (File c) ∧
      (∃ body, c = Csv.writerow header +:+ body) ∧
      header_row c = Some header ∧
      (∀ rest, content = Csv.writerow header +:+ rest →
         let n := String.length (Csv.writerow header) in
         str_take n c = str_take n content).
Proof.
  intros Hfile Hread.
  destruct (split_csv_files w input_file content header rows stop N Hfile Hread)
    as (o & evs & j & Hrun & Hw & Hwritten & _ & Hdisk).
  exists o, evs.
  split; [by exists (S (length rows)); intros fuel Hfuel; apply Hrun; lia|].
  split; [done|]. split; [unfold header_row; by rewrite Hread|].
  intros p c Hin. split; [by apply Hdisk|].
  rewrite Hwritten in Hin.
  apply list_elem_of_fmap in Hin as [k [[= -> ->] _]].
  split; [by eexists|].
  split; [by eapply header_row_written, chunk_fits|].
  intros rest -> n. unfold n. by rewrite !str_take_app.
Qed.

Lemma output_header_fields_witness :
  Csv.writerow ["Name"; "Age"] = "Name,Age" +:+ Csv.lineterminator ∧
  ∃ o evs,
    runs_to (λ fuel, split_csv fuel quoted_world sample_path 5) o ∧
    world_of o = do_events quoted_world evs ∧
    header_row quoted_content = Some ["Name"; "Age"] ∧
    ∀ p c, (p, c) ∈ written evs →
      fs (do_events quoted_world evs) !! p = Some (File c) ∧
      (∃ body, c = Csv.writerow ["Name"; "Age"] +:+ body) ∧
      header_row c = Some ["Name"; "Age"] ∧
      (∀ rest, quoted_content = Csv.writerow ["Name"; "Age"] +:+ rest →
         let n := String.length (Csv.writerow ["Name"; "Age"]) in
         str_take n c = str_take n quoted_content).
Proof.
  split; [vm_compute; reflexivity|].
  apply (output_header_fields quoted_world sample_path quoted_content
           ["Name"; "Age"] [["Ann"; "41"]] Csv.StopIteration 5).
  - vm_compute. reflexivity.
  - vm_compute. reflexivity.
Defined.

(** C5.  With [H > 0] rows in a file that the reader reads to its end,
    [N ≥ 1], and no directory where an output file goes: the run returns
    having written [ceil (H / N)] files; read back, the last file holds
    [H mod N] data rows when that is not zero and [N] data rows when it is;
    every other file holds [N] data rows. *)
Theorem split_csv_chunk_sizes w input_file content header rows N :
  fs w !! input_file = Some (File content) →
  Csv.reader content = (header :: rows, Csv.StopIteration) →
  outputs_free w input_file →
  (1 ≤ N)%Z →
  (0 < Z.of_nat (length rows))%Z →
  let H := Z.of_nat (length rows) in
  ∃ evs,
    runs_to (λ fuel, split_csv fuel w input_file N) (Returned (do_events w evs)) ∧
    Z.of_nat (length (written evs)) = ceil_div H N ∧
    ∀ k p c, written evs !! k = Some (p, c) →
      fs (do_events w evs) !! p = Some (File c) ∧
      Z.of_nat (length (data_rows c)) =
        if bool_decide (Z.of_nat k + 1 = ceil_div H N)%Z
        then (if bool_decide (H `mod` N = 0)%Z then N else (H `mod` N)%Z)
        else N.
Proof.
  intros Hfile Hread Hfree HN HH H.
  destruct (split_csv_outputs w input_file content header rows Hfile Hread Hfree
              N HN)
    as (evs & Hrun & Hwritten & _ & Hdisk).
  fold H in Hwritten.
  pose proof (ceil_div_spec H N ltac:(lia)) as Hceil.
  exists evs. split; [done|]. split.
  { rewrite Hwritten, length_fmap, length_seq. nia. }
  intros k p c Hk. split; [by eapply Hdisk, list_elem_of_lookup_2|].
  rewrite Hwritten in Hk. apply lookup_fmap_seq in Hk as [Hlt Heq].
  injection Heq as _ ->.
  rewrite data_rows_written, length_nth_chunk by (by eapply chunk_fits).
  case_bool_decide as Hlast.
  - rewrite <- last_chunk_size by lia. fold H. nia.
  - fold H. nia.
Qed.

Lemma split_csv_chunk_sizes_witness :
  let H := Z.of_nat (length sample_rows) in
  (H `mod` 5 = 2)%Z ∧
  ∃ evs,
    runs_to (λ fuel, split_csv fuel sample_world sample_path 5)
      (Returned (do_events sample_world evs)) ∧
    Z.of_nat (length (written evs)) = ceil_div H 5 ∧
    ∀ k p c, written evs !! k = Some (p, c) →
      fs (do_events sample_world evs) !! p = Some (File c) ∧
      Z.of_nat (length (data_rows c)) =
        if bool_decide (Z.of_nat k + 1 = ceil_div H 5)%Z
        then (if bool_decide (H `mod` 5 = 0)%Z then 5%Z else (H `mod` 5)%Z)
        else 5%Z.
Proof.
  split; [vm_compute; reflexivity|].
  apply (split_csv_chunk_sizes sample_world sample_path sample_content
           sample_header sample_rows 5).
  - vm_compute. reflexivity.
  - vm_compute. reflexivity.
  - apply singleton_free.
  - lia.
  - vm_compute. reflexivity.
Defined.

(** C6.  [main] with a path that does not exist, or else with one that is no
    regular file, or else with a chunk size that is not positive: it prints
    the message of that case and returns, whatever the splitter is (it is not
    called), so nothing is written and the file system is as it was. *)
Theorem main_validation split w input_csv max_lines msg :
  (path_exists w input_csv = false ∧
     msg = "Error: Input file '" +:+ str input_csv +:+ "' does not exist") ∨
  (path_exists w input_csv = true ∧ is_file w input_csv = false ∧
     msg = "Error: '" +:+ str input_csv +:+ "' is not a file") ∨
  (path_exists w input_csv = true ∧ is_file w input_csv = true ∧
     (max_lines ≤ 0)%Z ∧
     msg = "Error: --max-lines must be a positive integer") →
  main_with split w input_csv max_lines = Some (Returned (print w msg)) ∧
  (∀ fuel, main fuel w input_csv max_lines = Some (Returned (print w msg))) ∧
  fs (print w msg) = fs w ∧
  log (print w msg) = log w ++ [EvPrint msg] ∧
  written (log (print w msg)) = written (log w).
Proof.
  intros Hcase.
  split; [by apply main_with_rejects|].
  split; [intros fuel; by apply main_with_rejects|].
  split; [done|]. split; [done|]. apply written_log_print.
Qed.

Lemma main_validation_witness :
  let missing := "Error: Input file '/tmp/uneven.csv' does not exist" in
  let not_a_file := "Error: '/tmp' is not a file" in
  let not_positive := "Error: --max-lines must be a positive integer" in
  (∀ fuel, main fuel dir_world sample_path 5 =
     Some (Returned (print dir_world missing))) ∧
  (∀ fuel, main fuel dir_world tmp_dir 5 =
     Some (Returned (print dir_world not_a_file))) ∧
  (∀ fuel, main fuel sample_world sample_path 0 =
     Some (Returned (print sample_world not_positive))) ∧
  (∀ fuel, main fuel sample_world sample_path (-5) =
     Some (Returned (print sample_world not_positive))).
Proof.
  intros missing not_a_file not_positive. split; [|split; [|split]].
  - apply (main_validation (split_csv 0) dir_world sample_path 5 missing).
    left. split; vm_compute; reflexivity.
  - apply (main_validation (split_csv 0) dir_world tmp_dir 5 not_a_file).
    right; left. split; [|split]; vm_compute; reflexivity.
  - apply (main_validation (split_csv 0) sample_world sample_path 0 not_positive).
    right; right. split; [|split; [|split]]; [vm_compute; reflexivity..|lia|reflexivity].
  - apply (main_validation (split_csv 0) sample_world sample_path (-5) not_positive).
    right; right. split; [|split; [|split]]; [vm_compute; reflexivity..|lia|reflexivity].
Defined.

(** C7.  For [N ≥ 1]: a file of no lines makes the program print that the
    input file is empty, a file in which the reader finds a header and then
    the end makes it print that no data rows were found; in both cases that
    line is all it prints, it writes nothing and it returns. *)
Theorem empty_and_header_only w input_file content N msg :
  fs w !! input_file = Some (File content) →
  (1 ≤ N)%Z →
  (Csv.readlines content = [] ∧ msg = "Error: Input file is empty") ∨
  ((∃ header, Csv.reader content = ([header], Csv.StopIteration)) ∧
     msg = "No data rows found in the input file") →
  runs_to (λ fuel, main fuel w input_file N) (Returned (print w msg)) ∧
  runs_to (λ fuel, split_csv fuel w input_file N) (Returned (print w msg)) ∧
  fs (print w msg) = fs w ∧
  log (print w msg) = log w ++ [EvPrint msg] ∧
  written (log (print w msg)) = written (log w).
Proof.
  intros Hfile HN Hcase.
  assert (runs_to (λ fuel, split_csv fuel w input_file N) (Returned (print w msg)))
    as Hrun.
  { destruct Hcase as [[Hlines ->]|[[header Hread] ->]].
    - exists 0%nat. intros fuel _. unfold split_csv, Csv.reader.
      by rewrite Hfile, Hlines.
    - exists 1%nat. intros [|fuel] Hfuel; [lia|].
      unfold split_csv. rewrite Hfile, Hread. cbn [while_true].
      rewrite collect_raises_stop, collect_spec, take_nil. done. }
  split; [|split; [done|]].
  - destruct Hrun as [fuel0 Hfuel0]. exists fuel0. intros fuel Hfuel.
    rewrite (main_valid fuel w input_file content N Hfile HN). by apply Hfuel0.
  - split; [done|]. split; [done|]. apply written_log_print.
Qed.

Lemma empty_and_header_only_witness :
  Csv.readlines EmptyString = [] ∧
  Csv.reader (Csv.writerow sample_header) = ([sample_header], Csv.StopIteration) ∧
  runs_to (λ fuel, main fuel empty_world sample_path 5)
    (Returned (print empty_world "Error: Input file is empty")) ∧
  runs_to (λ fuel, main fuel header_only_world sample_path 5)
    (Returned (print header_only_world "No data rows found in the input file")).
Proof.
  split; [vm_compute; reflexivity|]. split; [vm_compute; reflexivity|]. split.
  - apply (empty_and_header_only empty_world sample_path EmptyString 5
             "Error: Input file is empty").
    + vm_compute. reflexivity.
    + lia.
    + left. split; vm_compute; reflexivity.
  - apply (empty_and_header_only header_only_world sample_path
             (Csv.writerow sample_header) 5
             "No data rows found in the input file").
    + vm_compute. reflexivity.
    + lia.
    + right. split; [|reflexivity]. exists sample_header. vm_compute. reflexivity.
Defined.

(** C8.  For a file in which the reader finds a header, whatever follows
    it, whatever the chunk size and however the run ends: every file
    written is on disk and is that of a chunk of rows [start .. end]; it
    lies in the directory of the input and its name is the stem of the
    input, a dot, [start], a dash, [end] and the suffix of the input, stem
    and suffix being the two parts of the input's name. *)
Theorem output_file_naming w input_file content header rows stop N :
  fs w !! input_file = Some (File content) →
  Csv.reader content = (header :: rows, stop) →
  ∃ o evs,
    runs_to (λ fuel, split_csv fuel w input_file N) o ∧
    world_of o = do_events w evs ∧
    stem input_file +:+ suffix input_file = name input_file ∧
    ∀ k p c, written evs !! k = Some (p, c) →
      let r := nth_range N (Z.of_nat (length rows)) k in
      fs (do_events w evs) !! p = Some (File c) ∧
      data_rows c = take (Z.to_nat (r.2 - r.1 + 1)) (drop (Z.to_nat (r.1 - 1)) rows) ∧
      parent p = parent input_file ∧
      name p = stem input_file +:+ "." +:+ pretty r.1 +:+ "-" +:+ pretty r.2 +:+
               suffix input_file.
Proof.
  intros Hfile Hread.
  destruct (split_csv_files w input_file content header rows stop N Hfile Hread)
    as (o & evs & j & Hrun & Hw & Hwritten & Hj & Hdisk).
  exists o, evs.
  split; [by exists (S (length rows)); intros fuel Hfuel; apply Hrun; lia|].
  split; [done|]. split; [apply stem_suffix|].
  intros k p c Hk r.
  split; [by eapply Hdisk, list_elem_of_lookup_2|].
  rewrite Hwritten in Hk. apply lookup_fmap_seq in Hk as [Hlt [= -> ->]].
  destruct (Hj ltac:(lia)) as [HN _]. split; [|split].
  - rewrite data_rows_written by (by eapply chunk_fits).
    by apply nth_chunk_range; lia.
  - apply parent_output_file.
  - apply name_output_file.
Qed.

Lemma output_file_naming_witness :
  stem sample_path = "uneven" ∧ suffix sample_path = ".csv" ∧
  ∃ o evs,
    runs_to (λ fuel, split_csv fuel sample_world sample_path 5) o ∧
    world_of o = do_events sample_world evs ∧
    stem sample_path +:+ suffix sample_path = name sample_path ∧
    ∀ k p c, written evs !! k = Some (p, c) →
      let r := nth_range 5 (Z.of_nat (length sample_rows)) k in
      fs (do_events sample_world evs) !! p = Some (File c) ∧
      data_rows c =
        take (Z.to_nat (r.2 - r.1 + 1)) (drop (Z.to_nat (r.1 - 1)) sample_rows) ∧
      parent p = parent sample_path ∧
      name p = stem sample_path +:+ "." +:+ pretty r.1 +:+ "-" +:+ pretty r.2 +:+
               suffix sample_path.
Proof.
  split; [vm_compute; reflexivity|]. split; [vm_compute; reflexivity|].
  apply (output_file_naming sample_world sample_path sample_content
           sample_header sample_rows Csv.StopIteration 5).
  - vm_compute. reflexivity.
  - vm_compute. reflexivity.
Defined.

(** C9.  Whatever the path and the chunk size, the program ends (it returns
    or raises) and the input path is in the file system as it was before:
    still there if it was, with the same content.  A path whose entry
    changed is not the input: it is an output file of the input.  The same
    holds for [split_csv] called by itself. *)
Theorem input_file_untouched w input_file N :
  (∃ o,
     runs_to (λ fuel, main fuel w input_file N) o ∧
     fs (world_of o) !! input_file = fs w !! input_file ∧
     ∀ p, fs (world_of o) !! p ≠ fs w !! p →
       p ≠ input_file ∧ ∃ s e, p = output_file input_file s e) ∧
  (∃ o,
     runs_to (λ fuel, split_csv fuel w input_file N) o ∧
     fs (world_of o) !! input_file = fs w !! input_file ∧
     ∀ p, fs (world_of o) !! p ≠ fs w !! p →
       p ≠ input_file ∧ ∃ s e, p = output_file input_file s e).
Proof.
  split.
  - destruct (main_frame w input_file N) as (o & evs & Hrun & Hw & Hout).
    exists o. split; [done|]. rewrite Hw. by apply frame_of_outputs.
  - destruct (split_csv_frame w input_file N) as (o & evs & Hrun & Hw & Hout).
    exists o. split; [done|]. rewrite Hw. by apply frame_of_outputs.
Qed.

(** C10.  [split_csv] called by itself on a file in which the reader finds
    a header ends for every integer chunk size: with more rounds than there
    are rows it returns or raises.  It returns when the reader reads the file
    to its end and no directory is where an output file goes.  For a chunk
    size that is not positive the inner loop takes no row, and the call
    prints that no data rows were found and returns without writing a file,
    whatever follows the header in the input. *)
Theorem split_csv_terminates w input_file content header rows stop N :
  fs w !! input_file = Some (File content) →
  Csv.reader content = (header :: rows, stop) →
  (∃ o, ∀ fuel, (length rows < fuel)%nat →
          split_csv fuel w input_file N = Some o) ∧
  (stop = Csv.StopIteration → outputs_free w input_file →
     ∃ w', runs_to (λ fuel, split_csv fuel w input_file N) (Returned w')) ∧
  ((N ≤ 0)%Z →
     collect (Z.to_nat N) rows [] 1 = (rows, [], 1%Z) ∧
     runs_to (λ fuel, split_csv fuel w input_file N)
       (Returned (print w "No data rows found in the input file")) ∧
     fs (print w "No data rows found in the input file") = fs w ∧
     written (log (print w "No data rows found in the input file")) =
       written (log w)).
Proof.
  intros Hfile Hread. split; [|split].
  - destruct (split_csv_any w input_file content header rows stop N Hfile Hread)
      as (o & j & tail & _ & Hrun & _).
    by exists o.
  - intros -> Hfree.
    destruct (split_csv_written w input_file content header rows Hfile Hread
                Hfree N) as (evs & Hrun & _).
    by exists (do_events w evs).
  - intros HN. split; [|split; [|split]].
    + by replace (Z.to_nat N) with 0%nat by lia.
    + by eapply split_csv_runs_nonpos.
    + done.
    + apply written_log_print.
Qed.

Lemma split_csv_terminates_witness :
  length sample_rows = 12%nat ∧
  (∃ o, ∀ fuel, (length sample_rows < fuel)%nat →
          split_csv fuel oversized_world sample_path 5 = Some o) ∧
  (∃ w', runs_to (λ fuel, split_csv fuel sample_world sample_path 5)
           (Returned w')) ∧
  collect (Z.to_nat (-5)) sample_rows [] 1 = (sample_rows, [], 1%Z) ∧
  runs_to (λ fuel, split_csv fuel oversized_world sample_path (-5))
    (Returned (print oversized_world "No data rows found in the input file")).
Proof.
  split; [vm_compute; reflexivity|].
  pose proof (split_csv_terminates oversized_world sample_path oversized_content
                sample_header sample_rows Csv.Error 5
                (lookup_singleton_eq _ _) reader_oversized_content)
    as (Hends & _ & _).
  pose proof (split_csv_terminates sample_world sample_path sample_content
                sample_header sample_rows Csv.StopIteration 5
                (lookup_singleton_eq _ _) eq_refl)
    as (_ & Hreturns & _).
  pose proof (split_csv_terminates oversized_world sample_path oversized_content
                sample_header sample_rows Csv.Error (-5)
                (lookup_singleton_eq _ _) reader_oversized_content)
    as (_ & _ & Hnonpos).
  split; [exact Hends|]. split.
  - apply Hreturns; [reflexivity|apply singleton_free].
  - destruct (Hnonpos ltac:(lia)) as (Hcollect & Hrun & _). by split.
Defined.

(** * Further properties of the code *)

(** ** Shared facts *)

Lemma run_events_runs w input_file content header rows N :
  fs w !! input_file = Some (File content) →
  Csv.reader content = (header :: rows, Csv.StopIteration) →
  outputs_free w input_file →
  runs_to (λ fuel, split_csv fuel w input_file N)
    (Returned (do_events w (run_events input_file header rows N))).
Proof.
  intros Hfile Hread Hfree. unfold run_events. case_bool_decide as HN.
  - by eapply split_csv_runs.
  - eapply split_csv_runs_nonpos; [done..|lia].
Qed.

Lemma written_run_events input_file header rows N :
  written (run_events input_file header rows N) =
    if bool_decide (1 ≤ N)%Z
    then expected_output input_file header N rows <$>
           seq 0 (Z.to_nat (ceil_div (Z.of_nat (length rows)) N))
    else [].
Proof.
  unfold run_events. case_bool_decide as HN; [|done].
  rewrite written_app, written_loop_events, count_to_nat by lia.
  cbn [written omap]. by rewrite app_nil_r.
Qed.

Lemma written_run_events_NoDup input_file header rows N :
  NoDup (written (run_events input_file header rows N)).*1.
Proof.
  rewrite written_run_events. case_bool_decide as HN.
  - apply expected_output_NoDup. lia.
  - apply NoDup_nil_2.
Qed.

Lemma main_runs_valid w input_csv content max_lines o :
  fs w !! input_csv = Some (File content) →
  (1 ≤ max_lines)%Z →
  runs_to (λ fuel, split_csv fuel w input_csv max_lines) o →
  runs_to (λ fuel, main fuel w input_csv max_lines) o.
Proof.
  intros Hfile HN [fuel0 Hrun]. exists fuel0. intros fuel Hfuel.
  rewrite (main_valid fuel w input_csv content max_lines Hfile HN).
  by apply Hrun.
Qed.

(** A list of events that writes what is on disk already leaves the file
    system as it is. *)
Lemma fs_do_events_same w evs :
  (∀ p c, (p, c) ∈ written evs → fs w !! p = Some (File c)) →
  fs (do_events w evs) = fs w.
Proof.
  revert w. induction evs as [|e evs IH]; intros w Hsame; [done|].
  change (do_events w (e :: evs)) with (do_events (do_event w e) evs).
  destruct e as [q d|l]; cbn [written omap] in Hsame; cbn [do_event].
  - assert (fs (write_file w q d) = fs w) as Hfs.
    { cbn. apply insert_id, Hsame, list_elem_of_here. }
    rewrite IH; [exact Hfs|]. intros p c Hin. rewrite Hfs.
    by apply Hsame, list_elem_of_further.
  - by rewrite IH.
Qed.

Lemma dom_do_events w evs :
  dom (fs (do_events w evs)) = dom (fs w) ∪ list_to_set (written evs).*1.
Proof.
  revert w. induction evs as [|e evs IH]; intros w.
  - cbn. by rewrite (right_id_L ∅ (∪)).
  - change (do_events w (e :: evs)) with (do_events (do_event w e) evs).
    rewrite IH. destruct e as [q d|l]; cbn.
    + by rewrite dom_insert_L, (comm_L (∪) {[q]}), (assoc_L (∪)).
    + done.
Qed.

Lemma flat_map_fmap {A B C} (f : B → list C) (g : A → B) (l : list A) :
  flat_map f (g <$> l) = flat_map (f ∘ g) l.
Proof. induction l as [|a l IH]; [done|]. cbn. by rewrite IH. Qed.

Lemma input_not_written input_file header rows N :
  input_file ∉ (written (run_events input_file header rows N)).*1.
Proof.
  rewrite written_run_events. case_bool_decide as HN; [|by apply not_elem_of_nil].
  rewrite <- list_fmap_compose.
  intros [k [Heq _]]%list_elem_of_fmap. cbn in Heq.
  symmetry in Heq. by apply output_file_ne_input in Heq.
Qed.

(** The directory of the tests, with nothing in it, has no directory where
    an output file of the sample goes. *)
Lemma dir_world_free : outputs_free dir_world sample_path.
Proof.
  intros s e. unfold dir_world. cbn [fs].
  rewrite lookup_singleton_ne; [done|].
  intros Heq. apply (f_equal (λ p, length (parts p))) in Heq.
  by cbn in Heq.
Qed.

(** A regular file put at a path makes no directory. *)
Lemma outputs_free_insert w input_file p content :
  outputs_free w input_file →
  outputs_free {| fs := <[p := File content]> (fs w); log := log w |} input_file.
Proof.
  intros Hfree s e. cbn.
  destruct (decide (p = output_file input_file s e)) as [->|Hne].
  - by rewrite lookup_insert_eq.
  - rewrite lookup_insert_ne by done. apply Hfree.
Qed.

Lemma create_csv_file_Some w path headers rows :
  fs w !! path ≠ Some Dir →
  create_csv_file w path headers rows =
    Some {| fs := <[path := File (Csv.writerow headers +:+ Csv.writerows rows)]>
                    (fs w);
            log := log w |}.
Proof.
  intros Hpath. unfold create_csv_file, open_w.
  by destruct (fs w !! path) as [[]|].
Qed.

(** ** Messages *)

(** X1.  For a file that the reader reads to its end, a chunk size [N ≥ 1]
    and no directory where an output file goes, the run does nothing but
    this: for each file in turn it writes the file and then prints
    [Created:] with the path of that file, and at the end it prints one more
    line, which counts the files written, or says that no data rows were
    found when none was. *)
Theorem split_csv_announces w input_file content header rows N :
  fs w !! input_file = Some (File content) →
  Csv.reader content = (header :: rows, Csv.StopIteration) →
  outputs_free w input_file →
  (1 ≤ N)%Z →
  ∃ evs,
    runs_to (λ fuel, split_csv fuel w input_file N) (Returned (do_events w evs)) ∧
    log (do_events w evs) = log w ++ evs ∧
    evs =
      flat_map announce (written evs) ++
      [EvPrint (if bool_decide (written evs = [])
                then "No data rows found in the input file"
                else "Split complete: Created " +:+
                     pretty (Z.of_nat (length (written evs))) +:+ " files")].
Proof.
  intros Hfile Hread Hfree HN. exists (run_events input_file header rows N).
  split; [by eapply run_events_runs|]. split; [apply log_do_events|].
  rewrite written_run_events. unfold run_events.
  rewrite !bool_decide_eq_true_2 by done.
  pose proof (ceil_div_spec (Z.of_nat (length rows)) N ltac:(lia)) as Hceil.
  set (count := ceil_div (Z.of_nat (length rows)) N) in *.
  f_equal.
  - rewrite flat_map_fmap. unfold loop_events.
    rewrite <- count_to_nat by done. fold count.
    apply flat_map_ext. intros k. by rewrite chunk_events_expected by lia.
  - rewrite length_fmap, length_seq. unfold summary. do 2 f_equal.
    destruct (Z.to_nat count) as [|c] eqn:Hc; cbn [seq fmap list_fmap].
    + rewrite (bool_decide_eq_true_2 (count = 0%Z)) by nia.
      by rewrite bool_decide_eq_true_2.
    + rewrite (bool_decide_eq_false_2 (count = 0%Z)) by lia.
      rewrite bool_decide_eq_false_2 by done.
      by replace (Z.of_nat (S c)) with count by lia.
Qed.

Lemma split_csv_announces_witness :
  ∃ evs,
    runs_to (λ fuel, split_csv fuel sample_world sample_path 5)
      (Returned (do_events sample_world evs)) ∧
    log (do_events sample_world evs) = log sample_world ++ evs ∧
    evs =
      flat_map announce (written evs) ++
      [EvPrint (if bool_decide (written evs = [])
                then "No data rows found in the input file"
                else "Split complete: Created " +:+
                     pretty (Z.of_nat (length (written evs))) +:+ " files")].
Proof.
  apply (split_csv_announces sample_world sample_path sample_content
           sample_header sample_rows 5).
  - vm_compute. reflexivity.
  - vm_compute. reflexivity.
  - apply singleton_free.
  - lia.
Defined.

(** ** Exceptions and the exit status *)

Lemma split_csv_returns w input_file content rows N :
  fs w !! input_file = Some (File content) →
  Csv.reader content = (rows, Csv.StopIteration) →
  outputs_free w input_file →
  ∃ w', runs_to (λ fuel, split_csv fuel w input_file N) (Returned w').
Proof.
  intros Hfile Hread Hfree. destruct rows as [|header rows].
  - exists (print w "Error: Input file is empty"), 0%nat. intros fuel _.
    unfold split_csv. by rewrite Hfile, Hread.
  - eexists. by eapply run_events_runs.
Qed.

(** X2.  Once [argparse] has given it a path and an integer, [main] returns,
    so that the exit status of the process is [0], whenever the reader reads
    the input, if it is a regular file, to its end and no directory is where
    an output file goes.  It returns then in each of its four cases: the
    path is not there, it is no regular file, the chunk size is not
    positive, and [split_csv] is called. *)
Theorem main_exit_status w input_csv max_lines :
  (∀ content, fs w !! input_csv = Some (File content) →
     (Csv.reader content).2 = Csv.StopIteration) →
  outputs_free w input_csv →
  ∃ o,
    runs_to (λ fuel, main fuel w input_csv max_lines) o ∧
    (∃ w', o = Returned w') ∧
    returncode o = 0%Z.
Proof.
  intros Hstop Hfree.
  assert (∀ msg, (∀ fuel, main fuel w input_csv max_lines =
                          Some (Returned (print w msg))) →
          ∃ o, runs_to (λ fuel, main fuel w input_csv max_lines) o ∧
               (∃ w', o = Returned w') ∧ returncode o = 0%Z) as Hmsg.
  { intros msg Hmain. exists (Returned (print w msg)).
    split; [by exists 0%nat|]. split; [by eexists|done]. }
  destruct (path_exists w input_csv) eqn:Hex.
  2:{ eapply Hmsg. intros fuel. apply main_with_rejects. left. by split. }
  destruct (is_file w input_csv) eqn:Hfile.
  2:{ eapply Hmsg. intros fuel. apply main_with_rejects. right; left. by split. }
  destruct (decide (max_lines ≤ 0)%Z) as [HN|HN].
  { eapply Hmsg. intros fuel. apply main_with_rejects.
    right; right. by repeat split. }
  unfold is_file in Hfile.
  destruct (fs w !! input_csv) as [[content|]|] eqn:Hlookup; try done.
  specialize (Hstop content eq_refl).
  destruct (Csv.reader content) as [rows stop] eqn:Hread. cbn in Hstop. subst stop.
  destruct (split_csv_returns w input_csv content rows max_lines Hlookup Hread
              Hfree) as [w' Hrun].
  exists (Returned w'). split; [|split; [by eexists|done]].
  eapply main_runs_valid; [done|lia|done].
Qed.

Lemma main_exit_status_witness :
  (∃ o, runs_to (λ fuel, main fuel sample_world sample_path 5) o ∧
        (∃ w', o = Returned w') ∧ returncode o = 0%Z) ∧
  (∃ o, runs_to (λ fuel, main fuel dir_world sample_path 5) o ∧
        (∃ w', o = Returned w') ∧ returncode o = 0%Z).
Proof.
  split.
  - apply (main_exit_status sample_world sample_path 5).
    + intros content Hfile. vm_compute in Hfile. injection Hfile as <-.
      vm_compute. reflexivity.
    + apply singleton_free.
  - apply (main_exit_status dir_world sample_path 5).
    + intros content Hfile. vm_compute in Hfile. discriminate.
    + apply dir_world_free.
Defined.



(** X14.  An error of the reader in a data row shows late: the reader reads
    the file as the loop asks for rows, so with a chunk size [N ≥ 1] and no
    directory where an output file goes the chunks that were complete before
    the error, [H / N] of them for [H] rows read, are written and announced
    as in a good run, the rows of the chunk under way are written nowhere,
    and [csv.Error] leaves the call before any summary line. *)
Theorem split_csv_error_after_chunks w input_file content header rows N :
  fs w !! input_file = Some (File content) →
  Csv.reader content = (header :: rows, Csv.Error) →
  outputs_free w input_file →
  (1 ≤ N)%Z →
  let full := (length rows / Z.to_nat N)%nat in
  ∃ evs,
    runs_to (λ fuel, split_csv fuel w input_file N)
      (Raised CsvError (do_events w evs)) ∧
    evs = flat_map announce
            (expected_output input_file header N rows <$> seq 0 full) ∧
    concat (data_rows <$> (written evs).*2) = take (full * Z.to_nat N) rows.
Proof.
  intros Hfile Hread Hfree HN full.
  assert (0 < Z.to_nat N)%nat as Hn by lia.
  exists (full_chunk_events input_file header (Z.to_nat N) rows 1).
  assert (full_chunk_events input_file header (Z.to_nat N) rows 1 =
          flat_map announce
            (expected_output input_file header N rows <$> seq 0 full)) as Hevs.
  { rewrite flat_map_fmap. unfold full_chunk_events. fold full.
    apply flat_map_ext. intros k. by rewrite chunk_events_expected by lia. }
  split; [|split; [done|]].
  - exists (S (length rows)). intros fuel Hfuel.
    unfold split_csv. rewrite Hfile, Hread.
    by rewrite while_true_error by (done || lia).
  - rewrite Hevs.
    rewrite (written_flat_map announce (λ pc, pc)) by (by intros [p c]).
    rewrite list_fmap_id, <- !list_fmap_compose.
    rewrite (list_fmap_ext _ (nth_chunk (Z.to_nat N) rows))
      by (intros i k _; by eapply data_rows_written, chunk_fits).
    rewrite <- (take_drop (full * Z.to_nat N) rows) at 1.
    assert (length (take (full * Z.to_nat N) rows) = (full * Z.to_nat N)%nat)
      as Hlen.
    { rewrite length_take. unfold full.
      pose proof (Nat.Div0.mul_div_le (length rows) (Z.to_nat N)). lia. }
    rewrite <- (concat_chunks (Z.to_nat N) (full * Z.to_nat N)
                  (take (full * Z.to_nat N) rows)) at 2 by lia.
    rewrite Hlen.
    replace (chunk_count (Z.to_nat N) (full * Z.to_nat N)) with full.
    2:{ unfold chunk_count.
        replace (full * Z.to_nat N + Z.to_nat N - 1)%nat
          with ((Z.to_nat N - 1) + full * Z.to_nat N)%nat by lia.
        rewrite Nat.div_add by lia. rewrite Nat.div_small by lia. done. }
    f_equal. apply list_fmap_ext. intros i k Hk.
    apply lookup_seq in Hk as [-> Hk]. cbn [Nat.add].
    unfold nth_chunk. rewrite drop_app_le by nia.
    rewrite take_app_le; [done|]. rewrite length_drop. nia.
Qed.

Lemma split_csv_error_after_chunks_witness :
  (length sample_rows / Z.to_nat 5)%nat = 2%nat ∧
  ∃ evs,
    runs_to (λ fuel, split_csv fuel oversized_world sample_path 5)
      (Raised CsvError (do_events oversized_world evs)) ∧
    evs = flat_map announce
            (expected_output sample_path sample_header 5 sample_rows <$>
               seq 0 (length sample_rows / Z.to_nat 5)) ∧
    concat (data_rows <$> (written evs).*2) =
      take (length sample_rows / Z.to_nat 5 * Z.to_nat 5) sample_rows.
Proof.
  split; [vm_compute; reflexivity|].
  apply (split_csv_error_after_chunks oversized_world sample_path
           oversized_content sample_header sample_rows 5).
  - apply lookup_singleton_eq.
  - apply reader_oversized_content.
  - apply singleton_free.
  - lia.
Defined.

(** ** Running the program again *)

(** X4.  Running the program a second time on the same input with the same
    chunk size does what the first run did: the same files are written with
    the same text, the same lines are printed, and the file system stays as
    the first run left it.  The input is a file that the reader reads to its
    end, and no directory is where an output file goes. *)
Theorem rerun_idempotent w input_file content header rows N :
  fs w !! input_file = Some (File content) →
  Csv.reader content = (header :: rows, Csv.StopIteration) →
  outputs_free w input_file →
  (1 ≤ N)%Z →
  ∃ evs,
    runs_to (λ fuel, main fuel w input_file N) (Returned (do_events w evs)) ∧
    runs_to (λ fuel, main fuel (do_events w evs) input_file N)
      (Returned (do_events (do_events w evs) evs)) ∧
    fs (do_events (do_events w evs) evs) = fs (do_events w evs).
Proof.
  intros Hfile Hread Hfree HN. exists (run_events input_file header rows N).
  assert (fs (do_events w (run_events input_file header rows N)) !! input_file =
          Some (File content)) as Hfile'.
  { rewrite fs_do_events_other; [done|apply input_not_written]. }
  split; [|split].
  - eapply main_runs_valid; [done..|]. by eapply run_events_runs.
  - eapply main_runs_valid; [done..|].
    eapply run_events_runs; [done..|]. by apply outputs_free_do_events.
  - apply fs_do_events_same. intros p c Hin.
    apply fs_do_events_written; [apply written_run_events_NoDup|done].
Qed.

Lemma rerun_idempotent_witness :
  ∃ evs,
    runs_to (λ fuel, main fuel sample_world sample_path 5)
      (Returned (do_events sample_world evs)) ∧
    runs_to (λ fuel, main fuel (do_events sample_world evs) sample_path 5)
      (Returned (do_events (do_events sample_world evs) evs)) ∧
    fs (do_events (do_events sample_world evs) evs) =
      fs (do_events sample_world evs).
Proof.
  apply (rerun_idempotent sample_world sample_path sample_content
           sample_header sample_rows 5).
  - vm_compute. reflexivity.
  - vm_compute. reflexivity.
  - apply singleton_free.
  - lia.
Defined.

(** ** The rounds of the loops *)

(** X5.  The inner loop, started on an empty chunk, takes the next rows off
    the reader in their order: [max_lines] of them, or all that are left when
    they are fewer; it adds the number of rows taken to [row_num]; and when
    it took fewer than [max_lines] rows the reader is exhausted. *)
Theorem collect_takes n reader row_num reader' chunk row_num' :
  collect n reader [] row_num = (reader', chunk, row_num') →
  reader = chunk ++ reader' ∧
  length chunk = (n `min` length reader)%nat ∧
  row_num' = (row_num + Z.of_nat (length chunk))%Z ∧
  ((length chunk < n)%nat → reader' = []).
Proof.
  rewrite collect_spec. cbn [app]. intros [= <- <- <-].
  rewrite length_take. split; [by rewrite take_drop|].
  split; [done|]. split; [done|].
  intros Hlt. apply drop_ge. lia.
Qed.

Lemma collect_takes_witness :
  collect 5 (drop 10 sample_rows) [] 11 = ([], drop 10 sample_rows, 13%Z) ∧
  drop 10 sample_rows = drop 10 sample_rows ++ [] ∧
  length (drop 10 sample_rows) = (5 `min` length (drop 10 sample_rows))%nat ∧
  13%Z = (11 + Z.of_nat (length (drop 10 sample_rows)))%Z ∧
  ((length (drop 10 sample_rows) < 5)%nat → @nil Csv.Row = []).
Proof.
  split; [vm_compute; reflexivity|].
  apply (collect_takes 5 (drop 10 sample_rows) 11 [] (drop 10 sample_rows) 13).
  vm_compute. reflexivity.
Defined.

(** X6.  For a chunk size [N ≥ 1], [H] rows left in a reader that stops with
    [StopIteration], and no directory where an output file goes, the loop
    [while True] makes [ceil (H / N) + 1] rounds, no more and no fewer: one
    for each file and a last one that finds no row and leaves the loop. *)
Theorem while_true_rounds fuel input_file N header rows row_num chunk_num w :
  (1 ≤ N)%Z →
  outputs_free w input_file →
  while_true fuel input_file N header rows Csv.StopIteration row_num chunk_num w =
    None ↔
  (Z.of_nat fuel ≤ ceil_div (Z.of_nat (length rows)) N)%Z.
Proof.
  intros HN. assert (0 < Z.to_nat N)%nat as Hn by lia.
  rewrite <- (Z2Nat.id N) at 2 by lia. rewrite <- chunk_count_ceil by done.
  revert rows row_num chunk_num w.
  induction fuel as [|fuel IH]; intros rows row_num chunk_num w Hfree.
  - cbn. split; [lia|done].
  - cbn [while_true]. rewrite collect_raises_stop, collect_spec. cbn [app].
    destruct (take (Z.to_nat N) rows) as [|row chunk] eqn:Hchunk.
    + assert (rows = []) as ->.
      { destruct rows; [done|]. destruct (Z.to_nat N); [lia|done]. }
      cbn [length]. rewrite chunk_count_0 by done. split; [done|lia].
    + assert (0 < length rows)%nat as HH.
      { destruct rows; [by rewrite take_nil in Hchunk|cbn; lia]. }
      rewrite (open_w_free w input_file) by done.
      rewrite (chunk_events_first _ _ _ _ _ _ _ _ Hchunk).
      rewrite IH by (by apply outputs_free_do_events).
      rewrite length_drop, (chunk_count_step _ (length rows)) by done. lia.
Qed.

Lemma while_true_rounds_witness :
  ceil_div (Z.of_nat (length sample_rows)) 5 = 3%Z ∧
  while_true 3 sample_path 5 sample_header sample_rows Csv.StopIteration 1 0
    sample_world = None ∧
  while_true 4 sample_path 5 sample_header sample_rows Csv.StopIteration 1 0
    sample_world ≠ None.
Proof.
  split; [vm_compute; reflexivity|]. split.
  - apply (while_true_rounds 3 sample_path 5 sample_header sample_rows 1 0
             sample_world); [lia|apply singleton_free|vm_compute; discriminate].
  - intros Hnone.
    apply (while_true_rounds 4 sample_path 5 sample_header sample_rows 1 0
             sample_world) in Hnone; [|lia|apply singleton_free].
    vm_compute in Hnone. by apply Hnone.
Defined.

(** ** The helpers of the test suite *)

(** X7.  At a path that is no directory [create_csv_file] makes the file,
    and [read_csv_file] gives back the header and the rows it was given,
    commas, quotes and line breaks in the fields included, just when no
    field is longer than the reader's limit; creating the file changes what
    is read at no other path. *)
Theorem read_created_csv_file w path headers rows :
  fs w !! path ≠ Some Dir →
  ∃ w0,
    create_csv_file w path headers rows = Some w0 ∧
    (read_csv_file w0 path = Some (headers, rows) ↔ rows_fit (headers :: rows)) ∧
    ∀ path', path' ≠ path → read_csv_file w0 path' = read_csv_file w path'.
Proof.
  intros Hpath. eexists. split; [by apply create_csv_file_Some|].
  unfold read_csv_file; cbn [fs]. split.
  - rewrite lookup_insert_eq.
    change (Csv.writerow headers +:+ Csv.writerows rows)
      with (Csv.writerows (headers :: rows)).
    split.
    + destruct (Csv.reader (Csv.writerows (headers :: rows)))
        as [[|h rs] []] eqn:Hread; try done.
      intros [= -> ->]. by eapply rows_fit_read.
    + intros Hfit. by rewrite reader_writerows.
  - intros path' Hne. by rewrite lookup_insert_ne.
Qed.

Lemma read_created_csv_file_witness :
  ∃ w0,
    create_csv_file dir_world sample_path sample_header sample_rows = Some w0 ∧
    (read_csv_file w0 sample_path = Some (sample_header, sample_rows) ↔
     rows_fit (sample_header :: sample_rows)) ∧
    ∀ path', path' ≠ sample_path →
      read_csv_file w0 path' = read_csv_file dir_world path'.
Proof.
  apply (read_created_csv_file dir_world sample_path sample_header sample_rows).
  vm_compute. discriminate.
Defined.

Lemma slice_chunk (rows : list Csv.Row) n k :
  slice (k * n) ((k + 1) * n) rows = nth_chunk n rows k.
Proof. unfold slice, nth_chunk. f_equal. lia. Qed.

(** X8.  What the tests check on three inputs holds for every header and
    all rows whose fields are within the reader's limit and every chunk size
    [N ≥ 1], in a directory where neither the input path nor a path of an
    output file is a directory: [create_csv_file] makes the input, the
    program returns with exit status [0]; afterwards the input reads as
    before, the file named after the [k]-th range reads as the header and
    the rows [rows[k*N : (k+1)*N]], and the files in the file system are
    those that were there and these output files, no other. *)
Theorem split_created_file w path headers rows N :
  (1 ≤ N)%Z →
  fs w !! path ≠ Some Dir →
  outputs_free w path →
  rows_fit (headers :: rows) →
  let H := Z.of_nat (length rows) in
  let n := Z.to_nat N in
  let count := Z.to_nat (ceil_div H N) in
  let out k := output_file path (nth_range N H k).1 (nth_range N H k).2 in
  ∃ w0 w',
    create_csv_file w path headers rows = Some w0 ∧
    runs_to (λ fuel, main fuel w0 path N) (Returned w') ∧
    returncode (Returned w') = 0%Z ∧
    read_csv_file w' path = Some (headers, rows) ∧
    (∀ k, (k < count)%nat →
       read_csv_file w' (out k) =
         Some (headers, slice (k * n) ((k + 1) * n) rows)) ∧
    dom (fs w') = dom (fs w0) ∪ list_to_set (out <$> seq 0 count).
Proof.
  intros HN Hpath Hfree Hfit H n count out.
  set (content := Csv.writerow headers +:+ Csv.writerows rows).
  set (w0 := {| fs := <[path := File content]> (fs w); log := log w |}).
  assert (fs w0 !! path = Some (File content)) as Hfile
    by (cbn; apply lookup_insert_eq).
  assert (Csv.reader content = (headers :: rows, Csv.StopIteration)) as Hread
    by (by apply (reader_writerows (headers :: rows))).
  assert (outputs_free w0 path) as Hfree0 by (by apply outputs_free_insert).
  set (evs := run_events path headers rows N).
  assert (written evs = expected_output path headers N rows <$> seq 0 count)
    as Hwritten.
  { unfold evs. rewrite written_run_events. by rewrite bool_decide_eq_true_2. }
  exists w0, (do_events w0 evs).
  split; [by apply create_csv_file_Some|].
  split; [|split; [done|split; [|split]]].
  - eapply main_runs_valid; [done..|]. by eapply run_events_runs.
  - unfold read_csv_file.
    rewrite fs_do_events_other by apply input_not_written.
    by rewrite Hfile, Hread.
  - intros k Hk. unfold read_csv_file.
    rewrite (fs_do_events_written w0 evs (out k)
               (Csv.writerow headers +:+ Csv.writerows (nth_chunk n rows k))).
    + change (Csv.writerow headers +:+ Csv.writerows (nth_chunk n rows k))
        with (Csv.writerows (headers :: nth_chunk n rows k)).
      rewrite reader_writerows by (by eapply chunk_fits).
      by rewrite slice_chunk.
    + apply written_run_events_NoDup.
    + rewrite Hwritten. apply list_elem_of_fmap. exists k.
      split; [done|]. apply elem_of_seq. lia.
  - rewrite dom_do_events, Hwritten, <- list_fmap_compose. done.
Qed.

Lemma split_created_file_witness :
  let H := Z.of_nat (length sample_rows) in
  let n := Z.to_nat 5 in
  let count := Z.to_nat (ceil_div H 5) in
  let out k := output_file sample_path (nth_range 5 H k).1 (nth_range 5 H k).2 in
  ∃ w0 w',
    create_csv_file dir_world sample_path sample_header sample_rows = Some w0 ∧
    runs_to (λ fuel, main fuel w0 sample_path 5) (Returned w') ∧
    returncode (Returned w') = 0%Z ∧
    read_csv_file w' sample_path = Some (sample_header, sample_rows) ∧
    (∀ k, (k < count)%nat →
       read_csv_file w' (out k) =
         Some (sample_header, slice (k * n) ((k + 1) * n) sample_rows)) ∧
    dom (fs w') = dom (fs w0) ∪ list_to_set (out <$> seq 0 count).
Proof.
  apply (split_created_file dir_world sample_path sample_header sample_rows 5).
  - lia.
  - vm_compute. discriminate.
  - apply dir_world_free.
  - apply sample_rows_fit.
Defined.

(** ** The bytes of the output files *)

Lemma writerows_app rs1 rs2 :
  Csv.writerows (rs1 ++ rs2) = Csv.writerows rs1 +:+ Csv.writerows rs2.
Proof.
  induction rs1 as [|r rs1 IH]; [done|].
  cbn [app Csv.writerows]. by rewrite IH, str_app_assoc.
Qed.

Lemma writerows_concat (chunks : list (list Csv.Row)) :
  Csv.writerows (concat chunks) = str_concat (Csv.writerows <$> chunks).
Proof.
  induction chunks as [|c chunks IH]; [done|].
  cbn [concat fmap list_fmap str_concat]. by rewrite writerows_app, IH.
Qed.

(** X9.  When the input is a file as [csv.writer] writes it, with fields
    within the reader's limit, the chunk size is [N ≥ 1] and no directory is
    where an output file goes, each output file is the header line of the
    input followed by a piece of the text of the input, and the pieces, one
    after the other in the order of the files, are the text of the input
    after its header line: the rows are copied byte for byte. *)
Theorem split_csv_copies_bytes w input_file header rows N :
  fs w !! input_file = Some (File (Csv.writerows (header :: rows))) →
  rows_fit (header :: rows) →
  outputs_free w input_file →
  (1 ≤ N)%Z →
  ∃ evs bodies,
    runs_to (λ fuel, split_csv fuel w input_file N) (Returned (do_events w evs)) ∧
    (written evs).*2 = (λ body, Csv.writerow header +:+ body) <$> bodies ∧
    Csv.writerows (header :: rows) = Csv.writerow header +:+ str_concat bodies.
Proof.
  intros Hfile Hfit Hfree HN.
  pose proof (reader_writerows (header :: rows) Hfit) as Hread.
  set (chunks := nth_chunk (Z.to_nat N) rows <$>
                 seq 0 (Z.to_nat (ceil_div (Z.of_nat (length rows)) N))).
  exists (run_events input_file header rows N), (Csv.writerows <$> chunks).
  split; [by eapply run_events_runs|]. split.
  - rewrite written_run_events, bool_decide_eq_true_2 by done.
    unfold chunks. by rewrite <- !list_fmap_compose.
  - cbn [Csv.writerows]. f_equal. rewrite <- writerows_concat. f_equal.
    unfold chunks. rewrite count_to_nat by done.
    symmetry. apply (concat_chunks _ (length rows)); lia.
Qed.

Lemma split_csv_copies_bytes_witness :
  ∃ evs bodies,
    runs_to (λ fuel, split_csv fuel sample_world sample_path 5)
      (Returned (do_events sample_world evs)) ∧
    (written evs).*2 = (λ body, Csv.writerow sample_header +:+ body) <$> bodies ∧
    Csv.writerows (sample_header :: sample_rows) =
      Csv.writerow sample_header +:+ str_concat bodies.
Proof.
  apply (split_csv_copies_bytes sample_world sample_path sample_header
           sample_rows 5).
  - vm_compute. reflexivity.
  - apply sample_rows_fit.
  - apply singleton_free.
  - lia.
Defined.

(** X10.  A file that the reader reads to its end, with at least one data
    row and no more than [max_lines], is not cut when no directory is where
    an output file goes: one file is written, named after the range
    [1 .. H], with the header and all the rows; when the input is a file as
    [csv.writer] writes it, that one file has the very text of the input. *)
Theorem small_file_one_output w input_file content header rows N :
  fs w !! input_file = Some (File content) →
  Csv.reader content = (header :: rows, Csv.StopIteration) →
  outputs_free w input_file →
  (1 ≤ Z.of_nat (length rows) ≤ N)%Z →
  ∃ evs,
    runs_to (λ fuel, split_csv fuel w input_file N) (Returned (do_events w evs)) ∧
    written evs =
      [(output_file input_file 1 (Z.of_nat (length rows)),
        Csv.writerows (header :: rows))] ∧
    (content = Csv.writerows (header :: rows) →
     written evs = [(output_file input_file 1 (Z.of_nat (length rows)), content)]).
Proof.
  intros Hfile Hread Hfree HH.
  exists (run_events input_file header rows N).
  split; [by eapply run_events_runs|].
  assert (written (run_events input_file header rows N) =
          [(output_file input_file 1 (Z.of_nat (length rows)),
            Csv.writerows (header :: rows))]) as Hwritten.
  { rewrite written_run_events, bool_decide_eq_true_2 by lia.
    replace (ceil_div (Z.of_nat (length rows)) N) with 1%Z
      by (apply ceil_div_unique; lia).
    unfold expected_output, nth_range, nth_chunk.
    change (Z.to_nat 1) with 1%nat. cbn [seq fmap list_fmap fst snd Nat.mul].
    rewrite drop_0, take_ge by lia.
    replace (Z.of_nat 0 * N + 1)%Z with 1%Z by lia.
    replace (Z.min ((Z.of_nat 0 + 1) * N) (Z.of_nat (length rows)))
      with (Z.of_nat (length rows)) by lia.
    done. }
  split; [done|]. by intros ->.
Qed.

Lemma small_file_one_output_witness :
  let content := Csv.writerows (sample_header :: take 5 sample_rows) in
  let w := {| fs := {[ sample_path := File content ]}; log := [] |} in
  ∃ evs,
    runs_to (λ fuel, split_csv fuel w sample_path 5) (Returned (do_events w evs)) ∧
    written evs =
      [(output_file sample_path 1 (Z.of_nat (length (take 5 sample_rows))),
        Csv.writerows (sample_header :: take 5 sample_rows))] ∧
    (content = Csv.writerows (sample_header :: take 5 sample_rows) →
     written evs =
       [(output_file sample_path 1 (Z.of_nat (length (take 5 sample_rows))),
         content)]).
Proof.
  intros content w.
  apply (small_file_one_output w sample_path content sample_header
           (take 5 sample_rows) 5).
  - vm_compute. reflexivity.
  - vm_compute. reflexivity.
  - apply singleton_free.
  - vm_compute. split; discriminate.
Defined.

(** ** The names of the output files *)

Lemma rfind_dot_bounds s : (-1 ≤ rfind_dot s < Z.of_nat (String.length s))%Z.
Proof.
  induction s as [|c s IH]; cbn [rfind_dot String.length]; [lia|].
  repeat case_bool_decide; lia.
Qed.

Lemma rfind_dot_app a b :
  rfind_dot (a +:+ b) =
    if bool_decide (0 ≤ rfind_dot b)%Z
    then (Z.of_nat (String.length a) + rfind_dot b)%Z
    else rfind_dot a.
Proof.
  pose proof (rfind_dot_bounds b) as Hb.
  induction a as [|c a IH].
  - rewrite str_app_nil_l. cbn [rfind_dot String.length].
    case_bool_decide; lia.
  - rewrite str_app_cons. cbn [rfind_dot String.length]. rewrite IH.
    repeat case_bool_decide; lia.
Qed.

Lemma rfind_dot_drop s :
  (0 ≤ rfind_dot s)%Z → rfind_dot (str_drop (Z.to_nat (rfind_dot s)) s) = 0%Z.
Proof.
  induction s as [|c s IH]; cbn [rfind_dot]; [lia|].
  case_bool_decide as Hi.
  - intros _.
    replace (Z.to_nat (rfind_dot s + 1)) with (S (Z.to_nat (rfind_dot s))) by lia.
    cbn [str_drop]. by apply IH.
  - case_bool_decide as Hc; [|lia]. intros _.
    change (Z.to_nat 0) with 0%nat. cbn [str_drop rfind_dot].
    rewrite (bool_decide_eq_false_2 (0 ≤ rfind_dot s)%Z) by done.
    by rewrite bool_decide_eq_true_2.
Qed.

Lemma rfind_dot_no_dot s : no_dot s → rfind_dot s = (-1)%Z.
Proof.
  induction s as [|c s IH]; [done|]. intros [Hc Hs]. cbn [rfind_dot].
  rewrite IH by done. rewrite bool_decide_eq_false_2 by lia.
  by rewrite bool_decide_eq_false_2.
Qed.

Lemma str_length_drop n s :
  String.length (str_drop n s) = (String.length s - n)%nat.
Proof.
  revert s. induction n as [|n IH]; intros [|c s]; cbn [str_drop String.length];
    [done|lia|done|apply IH].
Qed.

Lemma str_drop_app (a b : string) : str_drop (String.length a) (a +:+ b) = b.
Proof.
  induction a as [|x a IH]; [by destruct b|].
  rewrite str_app_cons. cbn [String.length str_drop]. exact IH.
Qed.

Lemma str_app_inv_r (a b x : string) : a +:+ x = b +:+ x → a = b.
Proof.
  intros Heq. pose proof (f_equal String.length Heq) as Hlen.
  rewrite !str_length_app in Hlen.
  rewrite <- (str_take_app a x), <- (str_take_app b x), Heq.
  f_equal. lia.
Qed.

Lemma no_dot_app a b : no_dot a → no_dot b → no_dot (a +:+ b).
Proof.
  induction a as [|c a IH]; [done|]. intros [Hc Ha] Hb.
  rewrite str_app_cons. split; [done|]. by apply IH.
Qed.

Lemma no_dot_pretty_N_go x s : no_dot s → no_dot (pretty_N_go x s).
Proof.
  revert s. induction (N.lt_wf_0 x) as [x _ IH]; intros s Hs.
  assert (x = 0 ∨ 0 < x)%N as [->|Hx] by lia.
  - by rewrite pretty_N_go_0.
  - rewrite pretty_N_go_step by done. apply IH.
    { by apply N.div_lt. }
    split; [|done]. unfold pretty_N_char. by repeat case_match.
Qed.

Lemma no_dot_pretty_Z (z : Z) : no_dot (pretty z).
Proof.
  assert (∀ q, no_dot (pretty (Zpos q))) as Hpos.
  { intros q. unfold pretty, pretty_Z, pretty, pretty_positive, pretty, pretty_N.
    case_decide; [done|]. by apply no_dot_pretty_N_go. }
  destruct z as [|q|q]; [by cbn|apply Hpos|].
  change (pretty (Z.neg q)) with ("-" +:+ pretty (Z.pos q)).
  by apply no_dot_app.
Qed.

(** A name made of a non-empty front part and an end part that begins with
    its only dot and is longer than the dot splits between the two. *)
Lemma suffix_stem_split p pre ext :
  name p = pre +:+ ext →
  (0 < String.length pre)%nat →
  rfind_dot ext = 0%Z →
  (2 ≤ String.length ext)%nat →
  suffix p = ext ∧ stem p = pre.
Proof.
  intros Hname Hpre Hdot Hext.
  assert (rfind_dot (pre +:+ ext) = Z.of_nat (String.length pre)) as Hi.
  { rewrite rfind_dot_app, Hdot. rewrite bool_decide_eq_true_2 by lia. lia. }
  assert (splits (pre +:+ ext) = true) as Hsplits.
  { unfold splits. rewrite Hi, str_length_app.
    rewrite !bool_decide_eq_true_2 by lia. done. }
  unfold suffix, stem. rewrite Hname, Hsplits, Hi, Nat2Z.id.
  by rewrite str_drop_app, str_take_app.
Qed.

(** X11.  The output files keep the extension of the input: when the input
    has a suffix, each output file has the same suffix, and its stem is the
    stem of the input followed by a dot and the row range. *)
Theorem output_file_keeps_suffix input_file s e :
  suffix input_file ≠ EmptyString →
  suffix (output_file input_file s e) = suffix input_file ∧
  stem (output_file input_file s e) =
    stem input_file +:+ "." +:+ pretty s +:+ "-" +:+ pretty e.
Proof.
  intros Hsuf.
  apply suffix_stem_split.
  - rewrite name_output_file. by rewrite !str_app_assoc.
  - rewrite !str_length_app. cbn. lia.
  - revert Hsuf. unfold suffix. destruct (splits (name input_file)) eqn:Hs; [|done].
    intros _. apply rfind_dot_drop.
    unfold splits in Hs. apply andb_prop in Hs as [Hs _].
    apply bool_decide_eq_true_1 in Hs. lia.
  - revert Hsuf. unfold suffix. destruct (splits (name input_file)) eqn:Hs; [|done].
    intros _. rewrite str_length_drop.
    unfold splits in Hs. apply andb_prop in Hs as [Hs1 Hs2].
    apply bool_decide_eq_true_1 in Hs1, Hs2. lia.
Qed.

Lemma output_file_keeps_suffix_witness :
  suffix (output_file sample_path 11 12) = suffix sample_path ∧
  stem (output_file sample_path 11 12) =
    stem sample_path +:+ "." +:+ pretty 11%Z +:+ "-" +:+ pretty 12%Z.
Proof.
  apply (output_file_keeps_suffix sample_path 11 12).
  vm_compute. discriminate.
Defined.

(** X12.  An input whose name has no suffix (no dot, or a dot only at its
    start or at its end) gives output files whose suffix is the row range:
    the stem of each output file is the whole name of the input, and its
    suffix is the dot and the range that were appended. *)
Theorem output_file_without_suffix input_file s e :
  name input_file ≠ EmptyString →
  suffix input_file = EmptyString →
  suffix (output_file input_file s e) = "." +:+ pretty s +:+ "-" +:+ pretty e ∧
  stem (output_file input_file s e) = name input_file.
Proof.
  intros Hname Hsuf.
  apply suffix_stem_split.
  - rewrite name_output_file, Hsuf, str_app_nil_r.
    f_equal. rewrite <- (stem_suffix input_file), Hsuf. by rewrite str_app_nil_r.
  - destruct (name input_file); [done|]. cbn. lia.
  - rewrite str_app_cons, str_app_nil_l. cbn [rfind_dot].
    rewrite rfind_dot_no_dot.
    + by rewrite bool_decide_eq_false_2 by lia.
    + apply no_dot_app; [apply no_dot_pretty_Z|].
      rewrite str_app_cons, str_app_nil_l. split; [done|apply no_dot_pretty_Z].
  - rewrite !str_length_app. cbn. lia.
Qed.

Lemma output_file_without_suffix_witness :
  suffix (output_file tmp_dir 1 5) = "." +:+ pretty 1%Z +:+ "-" +:+ pretty 5%Z ∧
  stem (output_file tmp_dir 1 5) = name tmp_dir.
Proof.
  apply (output_file_without_suffix tmp_dir 1 5).
  - vm_compute. discriminate.
  - vm_compute. reflexivity.
Defined.

(** X13.  The name of an output file tells its rows: two output files of
    one input that start at row numbers that are not negative and have the
    same path have the same first and the same last row number. *)
Theorem output_file_inj input_file s e s' e' :
  (0 ≤ s)%Z → (0 ≤ s')%Z →
  output_file input_file s e = output_file input_file s' e' →
  s = s' ∧ e = e'.
Proof.
  intros Hs Hs' Heq.
  assert (s = s') as <- by (by eapply output_file_start_inj).
  split; [done|].
  apply (f_equal name) in Heq. rewrite !name_output_file in Heq.
  do 4 apply (inj (String.app _)) in Heq.
  apply str_app_inv_r in Heq. by apply (inj pretty) in Heq.
Qed.

Lemma output_file_inj_witness :
  (1 = 1 ∧ 5 = 5)%Z.
Proof.
  apply (output_file_inj sample_path 1 5 1 5); [lia|lia|reflexivity].
Defined.
